(** * The tip-selection system of [tips.js]

    A shallow embedding of [src/tips.js]: the finished-tips record kept in
    [localStorage], its in-process cache, the validator table, the per-scope
    scan [_performStep], the frame driver [tick] and the exported operations
    [markTipFinished], [handleTipClose] and [resetTips].

    The module-level variables of the file and the fields of the registered
    system form one [state]; every function of the file that reads or writes
    them is a computation in a state-and-exception monad, because
    [JSON.parse] and property access on [null] throw. *)

From Stdlib Require Import Ascii.
From stdpp Require Import base option list strings gmap.

Open Scope string_scope.
Open Scope nat_scope.
Open Scope list_scope.

(** ** Values of the embedding *)

(** [INVALID = 0], [VALID = 1], [FINISH = 2]. *)
Inductive validation : Type := INVALID | VALID | FINISH.

Global Instance validation_eq_dec : EqDecision validation.
Proof. solve_decision. Defined.

(** The two scopes the system is run with. *)
Inductive scope : Type := top | bottom.

Global Instance scope_eq_dec : EqDecision scope.
Proof. solve_decision. Defined.

(** A JS object with the two properties [top] and [bottom]; it is the shape of
    [TIPS[platform]], of [activeTips] and of [finishedScopes]. *)
Record per_scope (A : Type) : Type := PerScope { at_top : A; at_bottom : A }.
Arguments PerScope {A} _ _.
Arguments at_top {A} _.
Arguments at_bottom {A} _.

Definition prop {A} (sc : scope) (o : per_scope A) : A :=
  match sc with top => at_top o | bottom => at_bottom o end.

Definition assign {A} (sc : scope) (v : A) (o : per_scope A) : per_scope A :=
  match sc with
  | top => PerScope v (at_bottom o)
  | bottom => PerScope (at_top o) v
  end.

(** What [JSON.parse] yields on the stored item: [null], or the record that
    maps a tip to the [finished] field of its entry.  Stored JSON values of
    another shape (numbers, arrays, ...) are not modelled. *)
Inductive json : Type :=
  | JNull
  | JRecord (m : gmap string bool).

(** The item under [LOCAL_STORAGE_KEY]: absent ([getItem] gives [null]), a
    string that is not JSON, or the serialisation of a [json] value. *)
Inductive item : Type :=
  | NoItem
  | BadItem
  | Item (v : json).

Inductive error : Type := TypeError | SyntaxError.

(** A property of [activeTips]: never assigned, [null], or a qualified name. *)
Inductive tipref : Type :=
  | Undefined
  | Null
  | Tip (name : string).

Global Instance tipref_eq_dec : EqDecision tipref.
Proof. solve_decision. Defined.

Global Instance per_scope_eq_dec {A} `{EqDecision A} : EqDecision (per_scope A).
Proof. solve_decision. Defined.

(** ** The collaborators read by the validators *)

(** The members of [sets] and [paths] the validators use. *)
Inductive set_name : Type :=
  | cursorHoldingPen
  | cursorHoldingInteractable
  | cursorHoldingCamera
  | cursorHoveringOnInteractable.

Inductive path : Type :=
  | touchCameraDelta
  | smartMouse_cameraDelta
  | characterAcceleration
  | snapRotateLeft
  | snapRotateRight
  | cursor_modDelta
  | cursor_scaleGrabbedGrabbable
  | cursor_penNextColor
  | cursor_penPrevColor
  | cursor_scalePenTip.

(** What [userinput.get] can give back; numbers are only tested against zero. *)
Inductive value : Type :=
  | VUndefined
  | VNull
  | VBool (b : bool)
  | VNumber (n : Z)
  | VArray (elems : list Z).

Definition truthy (v : value) : bool :=
  match v with
  | VUndefined | VNull => false
  | VBool b => b
  | VNumber n => negb (n =? 0)%Z
  | VArray _ => true
  end.

(** [v[i]] for a [v] that is neither [null] nor [undefined]. *)
Definition index (v : value) (i : nat) : value :=
  match v with
  | VArray elems =>
      match elems !! i with Some n => VNumber n | None => VUndefined end
  | _ => VUndefined
  end.

(** [v !== 0]. *)
Definition nonzero (v : value) : bool :=
  match v with
  | VNumber n => negb (n =? 0)%Z
  | _ => true
  end.

Record userinput : Type := {
  activeSets_has : set_name → bool;
  get : path → value
}.

(** [store.state.activity]. *)
Record activity : Type := {
  hasRotated : bool;
  hasScaled : bool;
  hasRecentered : bool;
  hasPinned : bool
}.

(** What one frame shows to [tick]: whether [this.el.systems.userinput] and
    the [networked-counter] component of [#media-counter] resolve, the state of
    those objects, the scene's [is], and [window.APP.store] (absent or with its
    activity flags). *)
Record frame : Type := {
  userinput_resolves : bool;
  mediaCounter_resolves : bool;
  the_userinput : userinput;
  scene_is : string → bool;
  count : nat;
  store : option activity
}.

(** ** State *)

(** The two module variables, the durable item, the fields of the system, and
    the payloads of the [tips_changed] events emitted so far, each as
    [activeTips] was when it was emitted. *)

Record state : Type := State {
  localStorage : item;
  localStorageCache : json;
  finishedScopes : per_scope bool;
  activeTips : per_scope tipref;
  _userinput : bool;
  _mediaCounter : bool;
  emitted : list (per_scope tipref)
}.

Definition set_localStorage (i : item) (s : state) : state :=
  State i (localStorageCache s) (finishedScopes s) (activeTips s)
        (_userinput s) (_mediaCounter s) (emitted s).
Definition set_localStorageCache (c : json) (s : state) : state :=
  State (localStorage s) c (finishedScopes s) (activeTips s)
        (_userinput s) (_mediaCounter s) (emitted s).
Definition set_finishedScopes (fs : per_scope bool) (s : state) : state :=
  State (localStorage s) (localStorageCache s) fs (activeTips s)
        (_userinput s) (_mediaCounter s) (emitted s).
Definition set_activeTips (a : per_scope tipref) (s : state) : state :=
  State (localStorage s) (localStorageCache s) (finishedScopes s) a
        (_userinput s) (_mediaCounter s) (emitted s).
Definition set_userinput (b : bool) (s : state) : state :=
  State (localStorage s) (localStorageCache s) (finishedScopes s) (activeTips s)
        b (_mediaCounter s) (emitted s).
Definition set_mediaCounter (b : bool) (s : state) : state :=
  State (localStorage s) (localStorageCache s) (finishedScopes s) (activeTips s)
        (_userinput s) b (emitted s).
Definition emit (payload : per_scope tipref) (s : state) : state :=
  State (localStorage s) (localStorageCache s) (finishedScopes s) (activeTips s)
        (_userinput s) (_mediaCounter s) (emitted s ++ [payload]).

(** ** The monad: state, and exceptions that keep the state reached *)

Inductive outcome (A : Type) : Type :=
  | Ok (a : A) (s : state)
  | Throw (e : error) (s : state).
Arguments Ok {A} _ _.
Arguments Throw {A} _ _.

Definition M (A : Type) : Type := state → outcome A.

Definition ret {A} (a : A) : M A := λ s, Ok a s.
Definition throw {A} (e : error) : M A := λ s, Throw e s.
Definition bind {A B} (c : M A) (k : A → M B) : M B :=
  λ s, match c s with
       | Ok a s' => k a s'
       | Throw e s' => Throw e s'
       end.
Definition gets {A} (f : state → A) : M A := λ s, Ok (f s) s.
Definition modify (f : state → state) : M unit := λ s, Ok tt (f s).

Notation "'let!' x ':=' c 'in' k" := (bind c (λ x, k))
  (at level 10, x pattern, c at level 100, k at level 200).

Definition state_of {A} (o : outcome A) : state :=
  match o with Ok _ s => s | Throw _ s => s end.

Definition returned {A} (o : outcome A) : option A :=
  match o with Ok a _ => Some a | Throw _ _ => None end.

(** ** Configuration *)

Inductive platform : Type := desktop | mobile | standalone.

Definition platform_name (p : platform) : string :=
  match p with
  | desktop => "desktop"
  | mobile => "mobile"
  | standalone => "standalone"
  end.

Definition TIPS (p : platform) : per_scope (list string) :=
  match p with
  | desktop =>
      PerScope
        ["mirror_mode"; "pen_mode"; "video_share_mode"; "mute_mode"]
        ["look"; "locomotion"; "turning"; "spawn_menu"; "object_grab";
         "object_zoom"; "object_scale"; "freeze_gesture"; "menu_hover";
         "object_recenter_button"; "object_rotate_button";
         "object_scale_button"; "object_pin"; "invite"; "pen_color";
         "pen_size"]
  | mobile =>
      PerScope
        ["pen_mode"; "video_share_mode"; "freeze_mode"; "mute_mode"]
        ["look"; "locomotion"; "spawn_menu"; "object_grab"; "freeze_gesture";
         "object_recenter_button"; "object_rotate_button";
         "object_scale_button"; "object_pin"; "invite"]
  | standalone => PerScope [] []
  end.

(** These tips, if closed, only clear themselves. *)
Definition LOCAL_CLOSE_TIPS : list string := ["invite"; "object_pin"].

(** [s.split(".")]. *)
Fixpoint split_dot (s : string) : list string :=
  match s with
  | EmptyString => [EmptyString]
  | String c rest =>
      if Ascii.eqb c "."%char then EmptyString :: split_dot rest
      else match split_dot rest with
           | piece :: pieces => String c piece :: pieces
           | [] => [String c EmptyString]
           end
  end.

(** ** The persistence functions *)

(** [JSON.parse(localStorage.getItem(LOCAL_STORAGE_KEY))]: [getItem] gives
    [null] for an absent item and [JSON.parse(null)] is [null]; a string that
    is not JSON makes [JSON.parse] throw. *)
Definition parse_stored : M json :=
  let! it := gets localStorage in
  match it with
  | NoItem => ret JNull
  | BadItem => throw SyntaxError
  | Item v => ret v
  end.

(** [!!(record[tip] && record[tip].finished)]. *)
Definition has_finished_entry (m : gmap string bool) (tip : string) : bool :=
  bool_decide (m !! tip = Some true).

Definition isTipFinished (tip : string) : M bool :=
  let! cache := gets localStorageCache in
  let! _ := match cache with
            | JNull =>
                let! parsed := parse_stored in
                modify (set_localStorageCache parsed)
            | JRecord _ => ret tt
            end in
  let! cache := gets localStorageCache in
  match cache with
  | JNull => throw TypeError
  | JRecord m => ret (has_finished_entry m tip)
  end.

(** What [JSON.stringify] writes after [storeData[tip] = { finished: true }]
    on a parsed record: the record with the entry, except for the name
    [__proto__], whose assignment goes to the setter of [Object.prototype]
    and replaces the prototype, which [JSON.stringify] does not write. *)
Definition with_entry (tip : string) (m : gmap string bool)
  : gmap string bool :=
  if String.eqb tip "__proto__" then m else <[tip := true]> m.

Definition markTipFinished (tip : string) : M unit :=
  let! storeData := parse_stored in
  match storeData with
  | JNull => throw TypeError
  | JRecord m =>
      let! _ := modify (set_localStorage (Item (JRecord (with_entry tip m)))) in
      modify (set_localStorageCache JNull)
  end.

(** [store] is [window.APP.store] at the time of the call.  The two calls on
    it, [resetTipActivityFlags()] and [resetConfirmedDiscordRooms()], act on
    the store itself, whose activity flags reach the validators through the
    [store] of each [frame]; on an absent store the first call is a
    [TypeError], raised after the record and the cache are cleared and before
    [finishedScopes] is. *)
Definition resetTips (store : option activity) : M unit :=
  let! _ := modify (set_localStorage (Item (JRecord ∅))) in
  let! _ := modify (set_localStorageCache JNull) in
  let! _ := match store with
            | Some _ => ret tt
            | None => throw TypeError
            end in
  modify (set_finishedScopes (PerScope false false)).

(** [for (let i = 0; i < tips.length; i++) markTipFinished(tips[i])]. *)
Fixpoint markTipsFinished (tips : list string) : M unit :=
  match tips with
  | [] => ret tt
  | tip :: rest => let! _ := markTipFinished tip in markTipsFinished rest
  end.

(** [init] of the registered system, run on the module's initial variables
    ([localStorageCache = null], [finishedScopes = {}]) and on whatever the
    browser holds under the key.  The field [this._finishedScopes] it creates
    is never read. *)
Definition init (stored : item) : state :=
  {| localStorage := match stored with
                     | NoItem => Item (JRecord ∅)
                     | _ => stored
                     end;
     localStorageCache := JNull;
     finishedScopes := PerScope false false;
     activeTips := PerScope Undefined Undefined;
     _userinput := false;
     _mediaCounter := false;
     emitted := [] |}.

(** ** Validators, [_performStep], [tick] and [handleTipClose] *)

Definition validator : Type :=
  userinput → (string → bool) → nat → option activity → validation.

Section Device.

(** [AFRAME.utils.device.isMobile()] and [isMobileVR()], read once. *)
Variables (isMobile isMobileVR : bool).

Definition tipPlatform : platform :=
  if isMobileVR then standalone
  else if isMobile then mobile else desktop.

Definition platformTips : per_scope (list string) := TIPS tipPlatform.

Definition look : validator := λ userinput _ _ _,
  if activeSets_has userinput cursorHoldingPen then INVALID
  else
    let cameraDelta :=
      get userinput (if isMobile then touchCameraDelta
                     else smartMouse_cameraDelta) in
    if truthy cameraDelta then FINISH else VALID.

Definition locomotion : validator := λ userinput _ _ _,
  if activeSets_has userinput cursorHoldingPen then INVALID
  else
    let accel := get userinput characterAcceleration in
    if truthy accel && (nonzero (index accel 0) || nonzero (index accel 1))
    then FINISH else VALID.

Definition turning : validator := λ userinput _ _ _,
  if activeSets_has userinput cursorHoldingPen then INVALID
  else if truthy (get userinput snapRotateLeft)
          || truthy (get userinput snapRotateRight) then FINISH
  else VALID.

Definition spawn_menu : validator := λ userinput _ count _,
  if activeSets_has userinput cursorHoldingPen then INVALID
  else if count =? 0 then VALID
  else FINISH.

Definition freeze_gesture : validator := λ userinput scene count _,
  if count =? 0 then INVALID
  else if activeSets_has userinput cursorHoldingInteractable then INVALID
  else if activeSets_has userinput cursorHoldingPen then INVALID
  else if scene "frozen"
          && activeSets_has userinput cursorHoveringOnInteractable
  then FINISH
  else if scene "frozen" then INVALID else VALID.

Definition menu_hover : validator := λ userinput scene count _,
  if count =? 0 then INVALID
  else if negb (scene "frozen") then INVALID
  else if activeSets_has userinput cursorHoldingPen then INVALID
  else if scene "frozen"
          && activeSets_has userinput cursorHoveringOnInteractable
  then FINISH
  else VALID.

Definition invite : validator := λ userinput scene _ _,
  if activeSets_has userinput cursorHoldingPen then INVALID
  else if activeSets_has userinput cursorHoldingCamera then INVALID
  else if activeSets_has userinput cursorHoldingInteractable then INVALID
  else if scene "copresent" then FINISH else VALID.

Definition object_grab : validator := λ userinput scene count _,
  if scene "frozen" then INVALID
  else if count =? 0 then INVALID
  else if activeSets_has userinput cursorHoldingPen then INVALID
  else if activeSets_has userinput cursorHoldingCamera then INVALID
  else if activeSets_has userinput cursorHoldingInteractable then FINISH
  else VALID.

(** [store && store.state.activity.flag]. *)
Definition store_flag (flag : activity → bool) (store : option activity)
  : bool :=
  match store with
  | Some act => flag act
  | None => false
  end.

Definition object_rotate_button : validator := λ _ scene count store,
  if negb (scene "frozen") then INVALID
  else if count =? 0 then INVALID
  else if store_flag hasRotated store then FINISH
  else VALID.

Definition object_scale_button : validator := λ _ scene count store,
  if negb (scene "frozen") then INVALID
  else if count =? 0 then INVALID
  else if store_flag hasScaled store then FINISH
  else VALID.

Definition object_recenter_button : validator := λ _ scene count store,
  if negb (scene "frozen") then INVALID
  else if count =? 0 then INVALID
  else if store_flag hasRecentered store then FINISH
  else VALID.

Definition object_pin : validator := λ _ scene count store,
  if negb (scene "frozen") then INVALID
  else if count =? 0 then INVALID
  else if store_flag hasPinned store then FINISH
  else VALID.

Definition object_zoom : validator := λ userinput scene _ _,
  if scene "frozen" then INVALID
  else if activeSets_has userinput cursorHoldingPen then INVALID
  else if activeSets_has userinput cursorHoldingCamera then INVALID
  else if negb (activeSets_has userinput cursorHoldingInteractable)
  then INVALID
  else if truthy (get userinput cursor_modDelta) then FINISH
  else VALID.

Definition object_scale : validator := λ userinput scene _ _,
  if scene "frozen" then INVALID
  else if activeSets_has userinput cursorHoldingPen then INVALID
  else if activeSets_has userinput cursorHoldingCamera then INVALID
  else if negb (activeSets_has userinput cursorHoldingInteractable)
  then INVALID
  else if truthy (get userinput cursor_scaleGrabbedGrabbable) then FINISH
  else VALID.

Definition pen_color : validator := λ userinput _ _ _,
  if negb (activeSets_has userinput cursorHoldingPen) then INVALID
  else if truthy (get userinput cursor_penNextColor)
          || truthy (get userinput cursor_penPrevColor) then FINISH
  else VALID.

Definition pen_size : validator := λ userinput _ _ _,
  if negb (activeSets_has userinput cursorHoldingPen) then INVALID
  else if truthy (get userinput cursor_scalePenTip) then FINISH
  else VALID.

Definition pen_mode : validator := λ userinput _ _ _,
  if negb (activeSets_has userinput cursorHoldingPen) then INVALID
  else VALID.

Definition freeze_mode : validator := λ _ scene _ _,
  if scene "frozen" then VALID else INVALID.

Definition video_share_mode : validator := λ _ scene _ _,
  if scene "sharing_video" then VALID else INVALID.

Definition mirror_mode : validator := λ _ scene _ _,
  if scene "mirroring" then VALID else INVALID.

Definition mute_mode : validator := λ _ scene _ _,
  if scene "muted" then VALID else INVALID.

(** The object literal [VALIDATORS], in its order. *)
Definition VALIDATORS : list (string * validator) :=
  [ ("look", look); ("locomotion", locomotion); ("turning", turning);
    ("spawn_menu", spawn_menu); ("freeze_gesture", freeze_gesture);
    ("menu_hover", menu_hover); ("invite", invite);
    ("object_grab", object_grab);
    ("object_rotate_button", object_rotate_button);
    ("object_scale_button", object_scale_button);
    ("object_recenter_button", object_recenter_button);
    ("object_pin", object_pin); ("object_zoom", object_zoom);
    ("object_scale", object_scale); ("pen_color", pen_color);
    ("pen_size", pen_size); ("pen_mode", pen_mode);
    ("freeze_mode", freeze_mode); ("video_share_mode", video_share_mode);
    ("mirror_mode", mirror_mode); ("mute_mode", mute_mode) ].

(** [VALIDATORS[tip]]; [None] stands for [undefined]. *)
Fixpoint property (table : list (string * validator)) (tip : string)
  : option validator :=
  match table with
  | [] => None
  | (name, v) :: rest => if String.eqb name tip then Some v
                         else property rest tip
  end.

(** The value of [VALIDATORS[tip](userinput, scene, mediaCounter, store)]
    in a frame, when the table has the tip. *)
Definition validate (f : frame) (tip : string) : option validation :=
  match property VALIDATORS tip with
  | Some v => Some (v (the_userinput f) (scene_is f) (count f) (store f))
  | None => None
  end.

(** The call itself: calling [undefined] is a [TypeError]. *)
Definition call_validator (f : frame) (tip : string) : M validation :=
  match validate f tip with
  | Some r => ret r
  | None => throw TypeError
  end.

(** The template string [`${tipPlatform()}.${tip}`]. *)
Definition qualified (tip : string) : string :=
  platform_name tipPlatform +:+ "." +:+ tip.

(** The [for] loop of [_performStep], from index [i] on: [tips] is the rest
    of the array and [finishCount] the counter so far; it ends with the
    values of [chosenTip] and [finishCount].  [chosenTip] is [null] until a
    validator gives [VALID], and a qualified name is never the empty string,
    so [if (chosenTip) break] leaves the loop exactly then. *)
Fixpoint scan (f : frame) (tips : list string) (finishCount : nat)
  : M (tipref * nat) :=
  match tips with
  | [] => ret (Null, finishCount)
  | tip :: rest =>
      let! fin := isTipFinished tip in
      if fin then scan f rest (S finishCount)
      else
        let! r := call_validator f tip in
        match r with
        | FINISH =>
            let! _ := markTipFinished tip in
            scan f rest finishCount
        | VALID => ret (Tip (qualified tip), finishCount)
        | INVALID => scan f rest finishCount
        end
  end.

Definition _performStep (f : frame) (tips : list string) (sc : scope)
  : M unit :=
  let! fs := gets finishedScopes in
  if prop sc fs then ret tt
  else
    let! (chosenTip, finishCount) := scan f tips 0 in
    let! _ := modify (λ s, set_activeTips (assign sc chosenTip (activeTips s)) s) in
    if finishCount =? length tips
    then modify (λ s, set_finishedScopes (assign sc true (finishedScopes s)) s)
    else ret tt.

(** [a !== b] on the values [activeTips] holds. *)
Definition strict_neq (a b : tipref) : bool := negb (bool_decide (a = b)).

(** [tick] calls the method [_performStep] of [this]; the method is a
    parameter of [tick_with], so that the same driver can also be run with
    the full re-walk [_performStep_full] below. *)
Definition tick_with (performStep : frame → list string → scope → M unit)
    (f : frame) : M unit :=
  let! have := gets _userinput in
  let! _ := if have then ret tt
            else modify (set_userinput (userinput_resolves f)) in
  let! have := gets _userinput in
  if negb have then ret tt
  else
    let! have := gets _mediaCounter in
    let! _ := if have then ret tt
              else modify (set_mediaCounter (mediaCounter_resolves f)) in
    let! have := gets _mediaCounter in
    if negb have then ret tt
    else
      let tips := platformTips in
      let! prevTop := gets (λ s, at_top (activeTips s)) in
      let! prevBottom := gets (λ s, at_bottom (activeTips s)) in
      let! _ := performStep f (at_top tips) top in
      let! _ := performStep f (at_bottom tips) bottom in
      let! now := gets activeTips in
      if strict_neq prevTop (at_top now)
         || strict_neq prevBottom (at_bottom now)
      then modify (emit now)
      else ret tt.

Definition tick : frame → M unit := tick_with _performStep.

(** [LOCAL_CLOSE_TIPS.includes(tip)] for [tip = fullTip.split(".")[1]],
    which is [undefined] when [fullTip] has no dot. *)
Definition is_local_close (tip : option string) : bool :=
  match tip with
  | Some t => bool_decide (t ∈ LOCAL_CLOSE_TIPS)
  | None => false
  end.

Definition handleTipClose (fullTip : string) (sc : scope) : M unit :=
  let tip := split_dot fullTip !! 1 in
  let tips :=
    match tip with
    | Some t => if is_local_close tip then [t] else prop sc platformTips
    | None => prop sc platformTips
    end in
  markTipsFinished tips.

(** The calls the rest of the application makes, and the runs they form; a
    reset comes with [window.APP.store] as it is at that time. *)
Inductive op : Type :=
  | Tick (f : frame)
  | Close (fullTip : string) (sc : scope)
  | Mark (tip : string)
  | Reset (store : option activity).

Definition exec_with (performStep : frame → list string → scope → M unit)
    (o : op) : M unit :=
  match o with
  | Tick f => tick_with performStep f
  | Close fullTip sc => handleTipClose fullTip sc
  | Mark tip => markTipFinished tip
  | Reset store => resetTips store
  end.

(** A run goes on from the state an exception leaves behind. *)
Fixpoint run_with (performStep : frame → list string → scope → M unit)
    (ops : list op) (s : state) : state :=
  match ops with
  | [] => s
  | o :: rest => run_with performStep rest (state_of (exec_with performStep o s))
  end.

Definition exec : op → M unit := exec_with _performStep.
Definition run : list op → state → state := run_with _performStep.

(** The scope evaluator as the full re-walk the exhaustion flag is meant to
    save: [_performStep] with neither the test of [finishedScopes[scope]]
    nor the assignment to it. *)
Definition _performStep_full (f : frame) (tips : list string) (sc : scope)
  : M unit :=
  let! (chosenTip, finishCount) := scan f tips 0 in
  modify (λ s, set_activeTips (assign sc chosenTip (activeTips s)) s).

Definition tick_full : frame → M unit := tick_with _performStep_full.
Definition run_full : list op → state → state := run_with _performStep_full.

(** ** Vocabulary of the statements *)

(** The cache is either to be reloaded or what the stored item parses to. *)
Definition coherent (s : state) : Prop :=
  localStorageCache s = JNull ∨ localStorage s = Item (localStorageCache s).

Definition record_of (it : item) : option (gmap string bool) :=
  match it with
  | Item (JRecord m) => Some m
  | _ => None
  end.

(** The durable record has a finished entry for the tip. *)
Definition recorded (s : state) (tip : string) : bool :=
  match record_of (localStorage s) with
  | Some m => has_finished_entry m tip
  | None => false
  end.

(** A tip that is not recorded finished in [m] and whose validator gives
    [VALID] in the frame. *)
Definition selectable (f : frame) (m : gmap string bool) (tip : string)
  : bool :=
  negb (has_finished_entry m tip) && bool_decide (validate f tip = Some VALID).

(** The first selectable tip of a list, as [activeTips] holds it. *)
Definition first_selectable (f : frame) (m : gmap string bool)
    (tips : list string) : tipref :=
  match List.find (selectable f m) tips with
  | Some tip => Tip (qualified tip)
  | None => Null
  end.

(** What the loop computes on a record [m]: the chosen tip, the counter and
    the record with the tips that gave [FINISH] added. *)
Fixpoint scan_pure (f : frame) (m : gmap string bool) (tips : list string)
    (finishCount : nat) : tipref * nat * gmap string bool :=
  match tips with
  | [] => (Null, finishCount, m)
  | tip :: rest =>
      if has_finished_entry m tip then scan_pure f m rest (S finishCount)
      else match validate f tip with
           | Some FINISH => scan_pure f (<[tip := true]> m) rest finishCount
           | Some VALID => (Tip (qualified tip), finishCount, m)
           | _ => scan_pure f m rest finishCount
           end
  end.

(** What [_performStep] does after the loop, given the loop's two values. *)
Definition conclude (sc : scope) (tips : list string) (r : tipref * nat)
    (s : state) : state :=
  let s1 := set_activeTips (assign sc r.1 (activeTips s)) s in
  if r.2 =? length tips
  then set_finishedScopes (assign sc true (finishedScopes s1)) s1
  else s1.

(** The body of [tick] once both handles are there. *)
Definition evaluate (performStep : frame → list string → scope → M unit)
    (f : frame) : M unit :=
  let! prevTop := gets (λ s, at_top (activeTips s)) in
  let! prevBottom := gets (λ s, at_bottom (activeTips s)) in
  let! _ := performStep f (at_top platformTips) top in
  let! _ := performStep f (at_bottom platformTips) bottom in
  let! now := gets activeTips in
  if strict_neq prevTop (at_top now) || strict_neq prevBottom (at_bottom now)
  then modify (emit now)
  else ret tt.

(** The invariant of the system as long as no reset throws: the cache is
    coherent, and a scope whose exhaustion flag is set shows no tip and has
    all the tips of its catalog recorded finished. *)
Definition tips_inv (s : state) : Prop :=
  coherent s ∧
  ∀ sc, prop sc (finishedScopes s) = true →
        prop sc (activeTips s) = Null ∧
        ∀ tip, tip ∈ prop sc platformTips → recorded s tip = true.

(** Two states that differ at most in the cache and the exhaustion flags. *)
Definition same_view (s1 s2 : state) : Prop :=
  localStorage s1 = localStorage s2 ∧
  activeTips s1 = activeTips s2 ∧
  _userinput s1 = _userinput s2 ∧
  _mediaCounter s1 = _mediaCounter s2 ∧
  emitted s1 = emitted s2.

Definition is_reset (o : op) : bool :=
  match o with Reset _ => true | _ => false end.

(** An operation other than a reset that finds no store (and so throws). *)
Definition reset_finds_store (o : op) : bool :=
  match o with Reset None => false | _ => true end.

(** Every reset of a run finds the store. *)
Fixpoint resets_find_store (ops : list op) : bool :=
  match ops with
  | [] => true
  | o :: rest => reset_finds_store o && resets_find_store rest
  end.

(** Whether a run calls [resetTips]. *)
Fixpoint has_reset (ops : list op) : bool :=
  match ops with
  | [] => false
  | o :: rest => is_reset o || has_reset rest
  end.

(** The record of [s'] has every finished entry of the record of [s]. *)
Definition grows (s s' : state) : Prop :=
  ∀ x, recorded s x = true → recorded s' x = true.

(** The system with the exhaustion shortcut ([s1]) against the system that
    re-walks ([s2]): the first satisfies the invariant, the cache of the
    second is coherent, and they show the same to the outside. *)
Definition sim (s1 s2 : state) : Prop :=
  tips_inv s1 ∧ coherent s2 ∧ same_view s1 s2.

Definition sim_out (o1 o2 : outcome unit) : Prop :=
  returned o1 = returned o2 ∧ sim (state_of o1) (state_of o2).

(** Everything of a state but the durable record and its cache. *)
Definition rest_of (s : state) :=
  (finishedScopes s, activeTips s, _userinput s, _mediaCounter s, emitted s).

(** ** Sample frames and states for the concrete instances *)

(** No set active, no action this frame. *)
Definition idle_input : userinput :=
  {| activeSets_has := λ _, false; get := λ _, VUndefined |}.

(** The mouse moved the camera this frame. *)
Definition camera_input : userinput :=
  {| activeSets_has := λ _, false;
     get := λ p, match p with
                 | smartMouse_cameraDelta => VArray [1%Z; 0%Z]
                 | _ => VUndefined
                 end |}.

Definition idle_frame : frame :=
  {| userinput_resolves := true; mediaCounter_resolves := true;
     the_userinput := idle_input; scene_is := λ _, false;
     count := 0; store := None |}.

Definition camera_frame : frame :=
  {| userinput_resolves := true; mediaCounter_resolves := true;
     the_userinput := camera_input; scene_is := λ _, false;
     count := 0; store := None |}.

(** A frozen scene with one shared object and no store. *)
Definition frozen_frame : frame :=
  {| userinput_resolves := true; mediaCounter_resolves := true;
     the_userinput := idle_input;
     scene_is := λ name, String.eqb name "frozen";
     count := 1; store := None |}.


(** Whether a string contains a dot. *)
Fixpoint has_dot (s : string) : bool :=
  match s with
  | EmptyString => false
  | String c rest => Ascii.eqb c "."%char || has_dot rest
  end.

(** What [activeTips] may hold for a scope: nothing yet, [null], or the
    qualified name of a tip of that scope's catalog. *)
Definition shown_ok (s : state) : Prop :=
  ∀ sc, match prop sc (activeTips s) with
        | Tip q => ∃ tip, tip ∈ prop sc platformTips ∧ q = qualified tip
        | _ => True
        end.


(** A frame in which the input system is not registered yet. *)
Definition waiting_frame : frame :=
  {| userinput_resolves := false; mediaCounter_resolves := false;
     the_userinput := idle_input; scene_is := λ _, false;
     count := 0; store := None |}.

(** The part of the invariant that also survives a reset that throws: the
    cache is coherent, and without a record only a scope with an empty
    catalog has its exhaustion flag set. *)
Definition loose_inv (s : state) : Prop :=
  coherent s ∧
  (record_of (localStorage s) = None →
   ∀ sc, prop sc (finishedScopes s) = true → prop sc platformTips = []).

(** A store on which no activity was recorded, and an idle frame that finds
    it. *)
Definition fresh_activity : activity :=
  {| hasRotated := false; hasScaled := false;
     hasRecentered := false; hasPinned := false |}.

Definition stored_frame : frame :=
  {| userinput_resolves := true; mediaCounter_resolves := true;
     the_userinput := idle_input; scene_is := λ _, false;
     count := 0; store := Some fresh_activity |}.

(** ** The persistence functions on a record and without one *)

Lemma has_finished_entry_insert m t x :
  has_finished_entry (<[t := true]> m) x = true ↔
  x = t ∨ has_finished_entry m x = true.
Proof.
  unfold has_finished_entry. rewrite !bool_decide_eq_true.
  destruct (decide (t = x)) as [->|Hne].
  - rewrite lookup_insert_eq. split; [by left|done].
  - rewrite lookup_insert_ne by done.
    split; [by right|]. intros [Heq|Hx]; [congruence|done].
Qed.

Lemma has_finished_entry_with_entry m t x :
  has_finished_entry (with_entry t m) x = true ↔
  (x = t ∧ t ≠ "__proto__") ∨ has_finished_entry m x = true.
Proof.
  unfold with_entry. destruct (String.eqb_spec t "__proto__") as [Heq|Hne].
  - split; [by right|]. by intros [[_ H]|H].
  - rewrite has_finished_entry_insert. split; intros [H|H]; auto.
    left. apply H.
Qed.

(** A tip with a validator is not [__proto__], so its mark writes the entry. *)
Lemma with_entry_validated f tip r m :
  validate f tip = Some r → with_entry tip m = <[tip := true]> m.
Proof.
  intros Hr. unfold with_entry.
  destruct (String.eqb_spec tip "__proto__") as [-> | Hne]; [|done].
  unfold validate in Hr. simpl in Hr. discriminate Hr.
Qed.

Lemma coherent_record s m :
  localStorage s = Item (JRecord m) → coherent s →
  localStorageCache s = JNull ∨ localStorageCache s = JRecord m.
Proof.
  intros Hst [Hc|Hc]; [by left|right]. rewrite Hst in Hc. congruence.
Qed.

Lemma coherent_no_record s :
  record_of (localStorage s) = None → coherent s →
  localStorageCache s = JNull.
Proof.
  intros Hst [Hc|Hc]; [done|]. rewrite Hc in Hst. simpl in Hst.
  by destruct (localStorageCache s).
Qed.

Lemma isTipFinished_record tip s m :
  localStorage s = Item (JRecord m) → coherent s →
  isTipFinished tip s
  = Ok (has_finished_entry m tip) (set_localStorageCache (JRecord m) s).
Proof.
  intros Hst Hco. destruct (coherent_record s m Hst Hco) as [Hc|Hc];
    destruct s; simpl in *; subst; reflexivity.
Qed.

Lemma isTipFinished_no_record tip s :
  record_of (localStorage s) = None → localStorageCache s = JNull →
  ∃ e, isTipFinished tip s = Throw e s.
Proof.
  intros Hst Hc. destruct s as [st c fs a u mc ev]; simpl in *; subst.
  destruct st as [| |[|m]]; try discriminate; eexists; reflexivity.
Qed.

Lemma markTipFinished_record tip s m :
  localStorage s = Item (JRecord m) →
  markTipFinished tip s
  = Ok tt (set_localStorageCache JNull
             (set_localStorage (Item (JRecord (with_entry tip m))) s)).
Proof. intros Hst. destruct s; simpl in *; subst; reflexivity. Qed.

Lemma markTipFinished_no_record tip s :
  record_of (localStorage s) = None →
  ∃ e, markTipFinished tip s = Throw e s.
Proof.
  intros Hst. destruct s as [st c fs a u mc ev]; simpl in *.
  destruct st as [| |[|m]]; try discriminate; eexists; reflexivity.
Qed.

(** ** The loop on a record *)

Lemma scan_pure_count f tips : ∀ m fc,
  (scan_pure f m tips fc).1.2 ≤ fc + length tips.
Proof.
  induction tips as [|tip rest IH]; intros m fc; simpl; [lia|].
  destruct (has_finished_entry m tip).
  - specialize (IH m (S fc)). lia.
  - destruct (validate f tip) as [[| |]|]; simpl;
      try (specialize (IH m fc); lia).
    specialize (IH (<[tip := true]> m) fc). lia.
Qed.

(** The counter reaches the length of the list only when every tip was
    found finished, and then nothing is chosen and nothing is written. *)
Lemma scan_pure_full f tips : ∀ m fc,
  (scan_pure f m tips fc).1.2 = fc + length tips →
  scan_pure f m tips fc = (Null, fc + length tips, m) ∧
  ∀ tip, tip ∈ tips → has_finished_entry m tip = true.
Proof.
  induction tips as [|tip rest IH]; intros m fc; simpl.
  - intros _. split; [f_equal; f_equal; lia|]. intros tip Hin. inversion Hin.
  - destruct (has_finished_entry m tip) eqn:Hfin.
    + intros Hc. destruct (IH m (S fc)) as [Heq Hall]; [lia|]. split.
      * rewrite Heq. f_equal. f_equal. lia.
      * intros x Hx. apply elem_of_cons in Hx as [->|Hx]; auto.
    + intros Hc. exfalso.
      destruct (validate f tip) as [[| |]|]; simpl in Hc.
      * pose proof (scan_pure_count f rest m fc). lia.
      * lia.
      * pose proof (scan_pure_count f rest (<[tip := true]> m) fc). lia.
      * pose proof (scan_pure_count f rest m fc). lia.
Qed.

Lemma scan_pure_all_finished f tips : ∀ m fc,
  (∀ tip, tip ∈ tips → has_finished_entry m tip = true) →
  scan_pure f m tips fc = (Null, fc + length tips, m).
Proof.
  induction tips as [|tip rest IH]; intros m fc Hall; simpl.
  - f_equal. f_equal. lia.
  - rewrite (Hall tip) by (apply elem_of_cons; by left).
    rewrite IH by (intros x Hx; apply Hall; apply elem_of_cons; by right).
    f_equal. f_equal. lia.
Qed.

(** The record only grows. *)
Lemma scan_pure_grows f tips : ∀ m fc x,
  has_finished_entry m x = true →
  has_finished_entry (scan_pure f m tips fc).2 x = true.
Proof.
  induction tips as [|tip rest IH]; intros m fc x Hx; simpl; [done|].
  destruct (has_finished_entry m tip); [by apply IH|].
  destruct (validate f tip) as [[| |]|]; simpl; try by apply IH.
  - done.
  - apply IH. apply has_finished_entry_insert. by right.
Qed.

(** The chosen tip is the first selectable one with respect to the record
    the scan started from: a tip marked on the way gave [FINISH], so it is
    not selectable either way. *)
Lemma scan_pure_chosen_gen f m0 tips : ∀ m fc,
  (∀ x, has_finished_entry m0 x = true → has_finished_entry m x = true) →
  (∀ x, has_finished_entry m x = true →
        has_finished_entry m0 x = true ∨ validate f x = Some FINISH) →
  (scan_pure f m tips fc).1.1 = first_selectable f m0 tips.
Proof.
  unfold first_selectable.
  induction tips as [|tip rest IH]; intros m fc Hle Hge; simpl; [done|].
  unfold selectable at 1.
  destruct (has_finished_entry m tip) eqn:Hfin.
  - rewrite (IH m (S fc)) by done.
    destruct (Hge tip Hfin) as [H0|HF].
    + by rewrite H0.
    + rewrite HF. rewrite bool_decide_eq_false_2 by discriminate.
      by rewrite andb_false_r.
  - assert (has_finished_entry m0 tip = false) as ->.
    { destruct (has_finished_entry m0 tip) eqn:H0; [|done].
      apply Hle in H0. congruence. }
    simpl. destruct (validate f tip) as [[| |]|] eqn:Hv.
    + rewrite bool_decide_eq_false_2 by discriminate. by apply IH.
    + by rewrite bool_decide_eq_true_2.
    + rewrite bool_decide_eq_false_2 by discriminate. apply IH.
      * intros x Hx. apply has_finished_entry_insert. right. by apply Hle.
      * intros x Hx. apply has_finished_entry_insert in Hx as [->|Hx];
          [by right|by apply Hge].
    + rewrite bool_decide_eq_false_2 by discriminate. by apply IH.
Qed.

Lemma scan_pure_chosen f m tips fc :
  (scan_pure f m tips fc).1.1 = first_selectable f m tips.
Proof. apply scan_pure_chosen_gen; [done|]. intros x Hx. by left. Qed.

(** On a record and a coherent cache the loop returns what [scan_pure]
    computes, leaves the record it computes in the store, and leaves the
    cache coherent. *)
Lemma scan_record f tips : ∀ fc s m,
  localStorage s = Item (JRecord m) → coherent s →
  Forall (λ tip, is_Some (validate f tip)) tips →
  ∃ c, (c = JNull ∨ c = JRecord (scan_pure f m tips fc).2) ∧
       scan f tips fc s
       = Ok (scan_pure f m tips fc).1
            (set_localStorageCache c
               (set_localStorage (Item (JRecord (scan_pure f m tips fc).2)) s)).
Proof.
  induction tips as [|tip rest IH]; intros fc s m Hst Hco Hval.
  - exists (localStorageCache s). split.
    + apply (coherent_record s m Hst Hco).
    + simpl. unfold ret. rewrite <- Hst. by destruct s.
  - apply Forall_cons in Hval as [[r Hr] Hval].
    simpl. unfold bind at 1. rewrite (isTipFinished_record tip s m Hst Hco).
    set (s1 := set_localStorageCache (JRecord m) s).
    assert (localStorage s1 = Item (JRecord m)) as Hst1 by exact Hst.
    assert (coherent s1) as Hco1 by (right; exact Hst).
    destruct (has_finished_entry m tip).
    { destruct (IH (S fc) s1 m Hst1 Hco1 Hval) as (c & Hc & ->).
      exists c. split; [done|]. by destruct s. }
    unfold bind at 1, call_validator. rewrite Hr. unfold ret at 1.
    destruct r.
    + destruct (IH fc s1 m Hst1 Hco1 Hval) as (c & Hc & ->).
      exists c. split; [done|]. by destruct s.
    + exists (JRecord m). split; [by right|].
      unfold ret. simpl. subst s1. rewrite <- Hst. by destruct s.
    + unfold bind at 1. rewrite (markTipFinished_record tip s1 m Hst1).
      rewrite (with_entry_validated f tip _ m Hr).
      set (s2 := set_localStorageCache JNull _).
      destruct (IH fc s2 (<[tip := true]> m)) as (c & Hc & ->);
        [done|by left|done|].
      exists c. split; [done|]. by destruct s.
Qed.

(** Without a record the first lookup throws, and the state stays. *)
Lemma scan_no_record f tip rest fc s :
  record_of (localStorage s) = None → localStorageCache s = JNull →
  ∃ e, scan f (tip :: rest) fc s = Throw e s.
Proof.
  intros Hst Hc. destruct (isTipFinished_no_record tip s Hst Hc) as [e He].
  exists e. simpl. unfold bind at 1. by rewrite He.
Qed.

(** ** [_performStep] and [tick], case by case *)

Lemma performStep_unfold f tips sc s :
  _performStep f tips sc s
  = if prop sc (finishedScopes s) then Ok tt s
    else match scan f tips 0 s with
         | Ok r s1 => Ok tt (conclude sc tips r s1)
         | Throw e s1 => Throw e s1
         end.
Proof.
  unfold _performStep, bind, gets. destruct (prop sc (finishedScopes s)); [done|].
  destruct (scan f tips 0 s) as [[chosen fc] s1|e s1]; [|done].
  unfold conclude, modify. simpl. by destruct (fc =? length tips).
Qed.

Lemma performStep_full_unfold f tips sc s :
  _performStep_full f tips sc s
  = match scan f tips 0 s with
    | Ok r s1 => Ok tt (set_activeTips (assign sc r.1 (activeTips s1)) s1)
    | Throw e s1 => Throw e s1
    end.
Proof.
  unfold _performStep_full, bind.
  by destruct (scan f tips 0 s) as [[chosen fc] s1|e s1].
Qed.

(** Every tip of a catalog has a validator. *)
Lemma platformTips_validated f sc :
  Forall (λ tip, is_Some (validate f tip)) (prop sc platformTips).
Proof.
  unfold platformTips, tipPlatform.
  destruct isMobileVR, isMobile, sc; simpl;
    repeat (apply Forall_cons; split; [eexists; reflexivity|]);
    apply Forall_nil_2.
Qed.

(** [tick] is a no-op while a handle is missing, except that the input
    handle stays once resolved. *)
Lemma tick_without_input step f s :
  _userinput s = false → userinput_resolves f = false →
  tick_with step f s = Ok tt s.
Proof.
  intros Hu Hf. unfold tick_with, bind, gets, modify. rewrite Hu, Hf. simpl.
  unfold ret. f_equal. destruct s; simpl in *; by subst.
Qed.

Lemma tick_without_counter step f s :
  _userinput s || userinput_resolves f = true →
  _mediaCounter s = false → mediaCounter_resolves f = false →
  tick_with step f s = Ok tt (set_userinput true s).
Proof.
  intros Hu Hm Hf. unfold tick_with, bind, gets, modify, ret.
  destruct s as [st c fs a u mc ev]; simpl in *; subst.
  destruct u; simpl in *; rewrite ?Hu, ?Hf; simpl; rewrite ?Hf; done.
Qed.

Lemma tick_with_handles step f s :
  _userinput s || userinput_resolves f = true →
  _mediaCounter s || mediaCounter_resolves f = true →
  tick_with step f s
  = evaluate step f (set_mediaCounter true (set_userinput true s)).
Proof.
  intros Hu Hm. unfold tick_with, bind, gets, modify, ret.
  destruct s as [st c fs a u mc ev]; simpl in *.
  destruct u, mc; simpl in *; rewrite ?Hu, ?Hm; simpl; rewrite ?Hm; done.
Qed.

(** ** The shortcut against the full re-walk *)

Lemma record_of_Some it m : record_of it = Some m → it = Item (JRecord m).
Proof. destruct it as [| |[|m']]; simpl; congruence. Qed.

Lemma assign_same {A} sc (v : A) (o : per_scope A) :
  prop sc o = v → assign sc v o = o.
Proof. destruct sc, o; simpl; by intros <-. Qed.

Lemma prop_assign {A} sc sc' (v : A) (o : per_scope A) :
  prop sc' (assign sc v o) = if decide (sc' = sc) then v else prop sc' o.
Proof. by destruct sc, sc', o. Qed.

Lemma recorded_record s m x :
  localStorage s = Item (JRecord m) → recorded s x = has_finished_entry m x.
Proof. intros Hst. unfold recorded. by rewrite Hst. Qed.

Lemma sim_performStep f sc s1 s2 :
  sim s1 s2 →
  sim_out (_performStep f (prop sc platformTips) sc s1)
          (_performStep_full f (prop sc platformTips) sc s2).
Proof.
  intros ([Hco1 Hfl] & Hco2 & Hst & Hact & Hu & Hm & Hev).
  pose proof (platformTips_validated f sc) as Hval.
  rewrite performStep_unfold, performStep_full_unfold.
  destruct (record_of (localStorage s1)) as [m|] eqn:Hrec.
  - pose proof (record_of_Some _ _ Hrec) as Hst1.
    assert (localStorage s2 = Item (JRecord m)) as Hst2 by congruence.
    destruct (scan_record f (prop sc platformTips) 0 s2 m Hst2 Hco2 Hval)
      as (c2 & Hc2 & ->).
    destruct (prop sc (finishedScopes s1)) eqn:Hflag.
    + destruct (Hfl sc Hflag) as [Hnull Hall].
      rewrite scan_pure_all_finished in *.
      2,3: intros tip Hin; specialize (Hall tip Hin);
           by rewrite (recorded_record s1 m) in Hall.
      split; [done|]. simpl. rewrite <- Hact, (assign_same sc Null) by done.
      split; [by split|]. split; [|by repeat split].
      destruct Hc2 as [-> | ->]; [by left|by right].
    + destruct (scan_record f (prop sc platformTips) 0 s1 m Hst1 Hco1 Hval)
        as (c1 & Hc1 & ->).
      destruct (scan_pure f m (prop sc platformTips) 0) as [[chosen fc] m']
        eqn:Hpure.
      split; [done|]. simpl. unfold conclude. simpl.
      assert (same_view
                (set_activeTips (assign sc chosen (activeTips s1))
                   (set_localStorageCache c1
                      (set_localStorage (Item (JRecord m')) s1)))
                (set_activeTips (assign sc chosen (activeTips s2))
                   (set_localStorageCache c2
                      (set_localStorage (Item (JRecord m')) s2)))) as Hview.
      { rewrite Hact. by repeat split. }
      assert (coherent
                (set_activeTips (assign sc chosen (activeTips s2))
                   (set_localStorageCache c2
                      (set_localStorage (Item (JRecord m')) s2)))) as Hco2'.
      { destruct Hc2 as [-> | ->]; [by left|by right]. }
      assert (∀ x, recorded s1 x = true → has_finished_entry m' x = true)
        as Hgrow.
      { intros x Hx. rewrite (recorded_record s1 m) in Hx by done.
        pose proof (scan_pure_grows f (prop sc platformTips) m 0 x Hx) as H.
        by rewrite Hpure in H. }
      destruct (fc =? length (prop sc platformTips)) eqn:Hfc.
      * apply Nat.eqb_eq in Hfc.
        destruct (scan_pure_full f (prop sc platformTips) m 0) as [Heq Hall].
        { by rewrite Hpure. }
        rewrite Hpure in Heq. injection Heq as Hch _ Hm'. subst chosen m'.
        split; [|split; [done|exact Hview]]. split.
        { destruct Hc1 as [-> | ->]; [by left|by right]. }
        intros sc' Hsc'. simpl in *. rewrite prop_assign in Hsc'. rewrite prop_assign.
        destruct (decide (sc' = sc)) as [-> | Hne].
        -- split; [done|]. intros tip Hin. unfold recorded. simpl. by apply Hall.
        -- destruct (Hfl sc' Hsc') as [Hnull' Hall']. split; [done|].
           intros tip Hin. unfold recorded. simpl. apply Hgrow. by apply Hall'.
      * split; [|split; [done|exact Hview]]. split.
        { destruct Hc1 as [-> | ->]; [by left|by right]. }
        intros sc' Hsc'. simpl in *. rewrite prop_assign.
        destruct (decide (sc' = sc)) as [-> | Hne]; [congruence|].
        destruct (Hfl sc' Hsc') as [Hnull' Hall']. split; [done|].
        intros tip Hin. unfold recorded. simpl. apply Hgrow. by apply Hall'.
  - assert (record_of (localStorage s2) = None) as Hrec2 by (by rewrite <- Hst).
    pose proof (coherent_no_record s1 Hrec Hco1) as Hc1.
    pose proof (coherent_no_record s2 Hrec2 Hco2) as Hc2.
    destruct (prop sc platformTips) as [|tip rest] eqn:HT.
    + simpl. unfold ret. simpl.
      destruct (prop sc (finishedScopes s1)) eqn:Hflag.
      * destruct (Hfl sc Hflag) as [Hnull Hall].
        split; [done|]. simpl. rewrite <- Hact, (assign_same sc Null) by done.
        split; [by split|]. split; [done|by repeat split].
      * split; [done|]. unfold conclude. simpl. rewrite <- Hact.
        split; [|split; [done|by repeat split]].
        split; [done|]. intros sc' Hsc'. simpl in *. rewrite prop_assign in Hsc'. rewrite prop_assign.
        destruct (decide (sc' = sc)) as [-> | Hne].
        -- split; [done|]. rewrite HT. intros tip Hin. by apply elem_of_nil in Hin.
        -- exact (Hfl sc' Hsc').
    + destruct (prop sc (finishedScopes s1)) eqn:Hflag.
      * destruct (Hfl sc Hflag) as [_ Hall]. exfalso.
        specialize (Hall tip). rewrite HT in Hall.
        unfold recorded in Hall. rewrite Hrec in Hall.
        discriminate Hall. apply elem_of_cons. by left.
      * destruct (scan_no_record f tip rest 0 s1 Hrec Hc1) as [e1 ->].
        destruct (scan_no_record f tip rest 0 s2 Hrec2 Hc2) as [e2 ->].
        split; [done|]. simpl. split; [by split|]. split; [done|by repeat split].
Qed.

Lemma sim_refl s : tips_inv s → sim s s.
Proof. intros Hinv. split; [done|]. split; [apply Hinv|by repeat split]. Qed.

(** Fields the invariant and the coherence do not read. *)
Lemma sim_handles s1 s2 u mc :
  sim s1 s2 →
  sim (set_mediaCounter mc (set_userinput u s1))
      (set_mediaCounter mc (set_userinput u s2)).
Proof.
  intros (Hinv & Hco & Hst & Hact & _ & _ & Hev).
  split; [exact Hinv|]. split; [exact Hco|]. by repeat split.
Qed.

Lemma sim_input s1 s2 u :
  sim s1 s2 → sim (set_userinput u s1) (set_userinput u s2).
Proof.
  intros (Hinv & Hco & Hst & Hact & _ & Hm & Hev).
  split; [exact Hinv|]. split; [exact Hco|]. by repeat split.
Qed.

Lemma sim_emit s1 s2 :
  sim s1 s2 → sim (emit (activeTips s1) s1) (emit (activeTips s2) s2).
Proof.
  intros (Hinv & Hco & Hst & Hact & Hu & Hm & Hev).
  split; [exact Hinv|]. split; [exact Hco|].
  repeat split; try done. simpl. by rewrite Hact, Hev.
Qed.

Lemma sim_evaluate f s1 s2 :
  sim s1 s2 →
  sim_out (evaluate _performStep f s1) (evaluate _performStep_full f s2).
Proof.
  intros Hsim. pose proof Hsim as (_ & _ & _ & Hact & _).
  unfold evaluate, bind, gets. rewrite <- Hact.
  destruct (sim_performStep f top s1 s2 Hsim) as [Hr1 Hs1]. simpl in Hr1, Hs1.
  destruct (_performStep f (at_top platformTips) top s1) as [[] s1'|e1 s1'];
    destruct (_performStep_full f (at_top platformTips) top s2)
      as [[] s2'|e2 s2']; try discriminate; [|by split].
  simpl in Hs1.
  destruct (sim_performStep f bottom s1' s2' Hs1) as [Hr2 Hs2].
  simpl in Hr2, Hs2.
  destruct (_performStep f (at_bottom platformTips) bottom s1')
    as [[] s1''|e1 s1''];
    destruct (_performStep_full f (at_bottom platformTips) bottom s2')
      as [[] s2''|e2 s2'']; try discriminate; [|by split].
  simpl in Hs2. pose proof Hs2 as (_ & _ & _ & Hact' & _).
  rewrite <- Hact'.
  destruct (strict_neq _ _ || strict_neq _ _); [|by split].
  split; [done|]. unfold modify. simpl. rewrite Hact' at 2. by apply sim_emit.
Qed.

Lemma sim_tick f s1 s2 :
  sim s1 s2 → sim_out (tick f s1) (tick_full f s2).
Proof.
  intros Hsim. pose proof Hsim as (_ & _ & _ & _ & Hu & Hm & _).
  unfold tick, tick_full.
  destruct (_userinput s1 || userinput_resolves f) eqn:Hin.
  - destruct (_mediaCounter s1 || mediaCounter_resolves f) eqn:Hmc.
    + rewrite !tick_with_handles by (by rewrite <- ?Hu, <- ?Hm).
      apply sim_evaluate. by apply sim_handles.
    + apply orb_false_iff in Hmc as [Hmc1 Hmc2].
      rewrite !tick_without_counter by (by rewrite <- ?Hu, <- ?Hm).
      split; [done|]. by apply sim_input.
  - apply orb_false_iff in Hin as [Hin1 Hin2].
    rewrite !tick_without_input by (by rewrite <- ?Hu).
    by split.
Qed.

(** The exported operations act alike on both systems. *)
Lemma sim_markTipFinished tip s1 s2 :
  sim s1 s2 → sim_out (markTipFinished tip s1) (markTipFinished tip s2).
Proof.
  intros ([Hco1 Hfl] & Hco2 & Hst & Hact & Hu & Hm & Hev).
  destruct (record_of (localStorage s1)) as [m|] eqn:Hrec.
  - pose proof (record_of_Some _ _ Hrec) as Hst1.
    rewrite (markTipFinished_record tip s1 m Hst1).
    rewrite (markTipFinished_record tip s2 m) by congruence.
    split; [done|]. simpl. split; [|split; [by left|by repeat split]].
    split; [by left|]. intros sc Hsc. simpl in *.
    destruct (Hfl sc Hsc) as [Hnull Hall]. split; [done|].
    intros x Hx. unfold recorded. simpl.
    apply has_finished_entry_with_entry. right.
    rewrite <- (recorded_record s1 m) by done. by apply Hall.
  - destruct (markTipFinished_no_record tip s1 Hrec) as [e1 ->].
    destruct (markTipFinished_no_record tip s2) as [e2 ->];
      [by rewrite <- Hst|].
    split; [done|]. simpl. split; [by split|]. split; [done|by repeat split].
Qed.

Lemma sim_markTipsFinished tips : ∀ s1 s2,
  sim s1 s2 → sim_out (markTipsFinished tips s1) (markTipsFinished tips s2).
Proof.
  induction tips as [|tip rest IH]; intros s1 s2 Hsim; [by split|].
  simpl. unfold bind.
  destruct (sim_markTipFinished tip s1 s2 Hsim) as [Hr Hs].
  destruct (markTipFinished tip s1) as [[] s1'|e1 s1'];
    destruct (markTipFinished tip s2) as [[] s2'|e2 s2'];
    try discriminate; [|by split].
  by apply IH.
Qed.

Lemma sim_resetTips act s1 s2 :
  sim s1 s2 → sim_out (resetTips (Some act) s1) (resetTips (Some act) s2).
Proof.
  intros (_ & _ & Hst & Hact & Hu & Hm & Hev).
  split; [done|]. simpl. split; [|split; [by left|by repeat split]].
  split; [by left|]. intros sc Hsc. simpl in Hsc. by destruct sc.
Qed.

(** The two systems stay related through every operation but a reset that
    finds no store: that one throws before it clears the exhaustion flags. *)
Lemma sim_exec o s1 s2 :
  reset_finds_store o = true → sim s1 s2 →
  sim_out (exec_with _performStep o s1) (exec_with _performStep_full o s2).
Proof.
  intros Hok Hsim. destruct o as [f|fullTip sc|tip|[act|]]; simpl;
    [..|discriminate Hok].
  - by apply sim_tick.
  - unfold handleTipClose. by apply sim_markTipsFinished.
  - by apply sim_markTipFinished.
  - by apply sim_resetTips.
Qed.

Lemma sim_run ops : ∀ s1 s2,
  resets_find_store ops = true → sim s1 s2 →
  sim (run ops s1) (run_full ops s2).
Proof.
  induction ops as [|o rest IH]; intros s1 s2 Hok Hsim; [done|].
  simpl in Hok. apply andb_true_iff in Hok as [Ho Hrest].
  simpl. apply IH; [done|]. by apply sim_exec.
Qed.

Lemma no_reset_finds_store o : is_reset o = false → reset_finds_store o = true.
Proof. by destruct o as [f|fullTip sc|tip|[act|]]. Qed.

Lemma no_resets_find_store ops :
  has_reset ops = false → resets_find_store ops = true.
Proof.
  induction ops as [|o rest IH]; [done|]. simpl. intros Hnr.
  apply orb_false_iff in Hnr as [Ho Hrest].
  by rewrite (no_reset_finds_store o Ho), IH.
Qed.

(** ** The invariant holds from [init] on, but for a reset without a store *)

Lemma tips_inv_init stored : tips_inv (init stored).
Proof. split; [by left|]. intros sc Hsc. by destruct sc. Qed.

Lemma tips_inv_exec o s :
  reset_finds_store o = true → tips_inv s → tips_inv (state_of (exec o s)).
Proof.
  intros Hok Hinv.
  by destruct (sim_exec o s s Hok (sim_refl s Hinv)) as [_ [? _]].
Qed.

Lemma tips_inv_run ops s :
  resets_find_store ops = true → tips_inv s → tips_inv (run ops s).
Proof.
  intros Hok Hinv. by destruct (sim_run ops s s Hok (sim_refl s Hinv)) as [? _].
Qed.

(** ** The selection on a record *)

Lemma append_inj_l (p a b : string) : p +:+ a = p +:+ b → a = b.
Proof.
  induction p as [|c p IH]; simpl; [done|].
  intros H. injection H as H. by apply IH.
Qed.

Lemma qualified_inj x y : qualified x = qualified y → x = y.
Proof. unfold qualified. intros H. by do 2 apply append_inj_l in H. Qed.

Lemma first_selectable_cases f m tips :
  (∃ pre tip post,
      tips = pre ++ tip :: post ∧
      (∀ x, x ∈ pre → selectable f m x = false) ∧
      selectable f m tip = true ∧
      first_selectable f m tips = Tip (qualified tip)) ∨
  ((∀ x, x ∈ tips → selectable f m x = false) ∧
   first_selectable f m tips = Null).
Proof.
  unfold first_selectable.
  induction tips as [|tip rest IH]; simpl.
  - right. split; [|done]. intros x Hx. by apply elem_of_nil in Hx.
  - destruct (selectable f m tip) eqn:Hsel.
    + left. exists [], tip, rest. split; [done|]. split; [|done].
      intros x Hx. by apply elem_of_nil in Hx.
    + destruct IH as [(pre & t & post & -> & Hpre & Ht & Heq)|[Hall Heq]].
      * left. exists (tip :: pre), t, post. split; [done|]. split; [|done].
        intros x Hx. apply elem_of_cons in Hx as [-> | Hx]; auto.
      * right. split; [|done].
        intros x Hx. apply elem_of_cons in Hx as [-> | Hx]; auto.
Qed.

Lemma first_selectable_skips f m pre rest :
  (∀ x, x ∈ pre → selectable f m x = false) →
  first_selectable f m (pre ++ rest) = first_selectable f m rest.
Proof.
  unfold first_selectable. induction pre as [|x pre IH]; intros Hpre; [done|].
  simpl. rewrite (Hpre x) by (apply elem_of_cons; by left).
  apply IH. intros y Hy. apply Hpre. apply elem_of_cons. by right.
Qed.

Lemma first_selectable_not_finished f m tips t :
  has_finished_entry m t = true →
  first_selectable f m tips ≠ Tip (qualified t).
Proof.
  intros Hfin.
  destruct (first_selectable_cases f m tips)
    as [(pre & x & post & _ & _ & Hx & ->)|[_ ->]]; [|done].
  intros Heq. injection Heq as Heq. apply qualified_inj in Heq. subst x.
  unfold selectable in Hx. by rewrite Hfin in Hx.
Qed.

Lemma performStep_record f tips sc s m :
  localStorage s = Item (JRecord m) → coherent s →
  Forall (λ tip, is_Some (validate f tip)) tips →
  prop sc (finishedScopes s) = false →
  ∃ c, (c = JNull ∨ c = JRecord (scan_pure f m tips 0).2) ∧
       _performStep f tips sc s
       = Ok tt (conclude sc tips (scan_pure f m tips 0).1
                  (set_localStorageCache c
                     (set_localStorage
                        (Item (JRecord (scan_pure f m tips 0).2)) s))).
Proof.
  intros Hst Hco Hval Hflag. rewrite performStep_unfold, Hflag.
  destruct (scan_record f tips 0 s m Hst Hco Hval) as (c & Hc & ->).
  by exists c.
Qed.

(** One scope step of [tick] on a record: it returns, the record grows, the
    scope shows the first selectable tip, and nothing else moves. *)
Lemma performStep_on_record f sc s m :
  tips_inv s → localStorage s = Item (JRecord m) →
  ∃ s' m',
    _performStep f (prop sc platformTips) sc s = Ok tt s' ∧
    localStorage s' = Item (JRecord m') ∧
    (∀ x, has_finished_entry m x = true → has_finished_entry m' x = true) ∧
    prop sc (activeTips s') = first_selectable f m (prop sc platformTips) ∧
    (∀ sc', sc' ≠ sc → prop sc' (activeTips s') = prop sc' (activeTips s)) ∧
    _userinput s' = _userinput s ∧ _mediaCounter s' = _mediaCounter s ∧
    emitted s' = emitted s ∧ tips_inv s'.
Proof.
  intros Hinv Hst.
  assert (tips_inv (state_of (_performStep f (prop sc platformTips) sc s)))
    as Hinv'.
  { by destruct (sim_performStep f sc s s (sim_refl s Hinv)) as [_ [? _]]. }
  destruct Hinv as [Hco Hfl].
  destruct (prop sc (finishedScopes s)) eqn:Hflag.
  - rewrite performStep_unfold, Hflag in *. exists s, m.
    destruct (Hfl sc Hflag) as [Hnull Hall].
    split_and!; try done.
    rewrite Hnull, <- (scan_pure_chosen f m _ 0), scan_pure_all_finished; [done|].
    intros tip Hin. rewrite <- (recorded_record s m) by done. by apply Hall.
  - destruct (performStep_record f _ sc s m Hst Hco
                (platformTips_validated f sc) Hflag) as (c & Hc & Heq).
    rewrite Heq in *. eexists _, (scan_pure f m (prop sc platformTips) 0).2.
    split; [done|]. rewrite <- (scan_pure_chosen f m _ 0).
    split_and!; [..|exact Hinv']; unfold conclude;
      try (by destruct (_ =? _)).
    + intros x Hx. by apply scan_pure_grows.
    + destruct (_ =? _); simpl; rewrite prop_assign;
        by destruct (decide (sc = sc)).
    + intros sc' Hne. destruct (_ =? _); simpl; rewrite prop_assign;
        by destruct (decide (sc' = sc)).
Qed.

(** ** What the persistence functions and the loop leave alone *)

Lemma isTipFinished_rest tip s :
  rest_of (state_of (isTipFinished tip s)) = rest_of s.
Proof. by destruct s as [[| |[|m]] [|m'] fs a u mc ev]. Qed.

Lemma markTipFinished_rest tip s :
  rest_of (state_of (markTipFinished tip s)) = rest_of s.
Proof. by destruct s as [[| |[|m]] c fs a u mc ev]. Qed.

Lemma markTipsFinished_rest tips : ∀ s,
  rest_of (state_of (markTipsFinished tips s)) = rest_of s.
Proof.
  induction tips as [|tip rest IH]; intros s; [done|].
  simpl. unfold bind. pose proof (markTipFinished_rest tip s) as H.
  destruct (markTipFinished tip s) as [[] s1|e s1]; simpl in H; [|done].
  by rewrite IH.
Qed.

Lemma scan_rest f tips : ∀ fc s,
  rest_of (state_of (scan f tips fc s)) = rest_of s.
Proof.
  induction tips as [|tip rest IH]; intros fc s; [done|].
  simpl. unfold bind at 1. pose proof (isTipFinished_rest tip s) as H.
  destruct (isTipFinished tip s) as [fin s1|e s1]; simpl in H; [|done].
  destruct fin; [by rewrite IH|].
  unfold bind at 1, call_validator.
  destruct (validate f tip) as [[| |]|]; unfold ret, throw; simpl;
    try done; try (by rewrite IH).
  unfold bind at 1. pose proof (markTipFinished_rest tip s1) as H'.
  destruct (markTipFinished tip s1) as [[] s2|e s2]; simpl in H'.
  - rewrite IH. congruence.
  - simpl. congruence.
Qed.

Lemma performStep_rest f tips sc s :
  let s' := state_of (_performStep f tips sc s) in
  _userinput s' = _userinput s ∧ _mediaCounter s' = _mediaCounter s ∧
  emitted s' = emitted s.
Proof.
  simpl. rewrite performStep_unfold.
  destruct (prop sc (finishedScopes s)); [done|].
  pose proof (scan_rest f tips 0 s) as H.
  destruct (scan f tips 0 s) as [r s1|e s1]; simpl in *;
    unfold rest_of in H; injection H as _ _ Hu Hm He.
  - unfold conclude. by destruct (_ =? _).
  - done.
Qed.

(** ** [tick] on a record *)

Lemma tick_on_record f s m :
  tips_inv s → localStorage s = Item (JRecord m) →
  ∃ s' m1 m',
    tick f s = Ok tt s' ∧ localStorage s' = Item (JRecord m') ∧
    (∀ x, has_finished_entry m x = true → has_finished_entry m1 x = true) ∧
    (∀ x, has_finished_entry m1 x = true → has_finished_entry m' x = true) ∧
    tips_inv s' ∧
    (_userinput s' = true → _mediaCounter s' = true →
     at_top (activeTips s') = first_selectable f m (at_top platformTips) ∧
     at_bottom (activeTips s')
     = first_selectable f m1 (at_bottom platformTips)).
Proof.
  intros Hinv Hst. unfold tick.
  destruct (_userinput s || userinput_resolves f) eqn:Hin.
  - destruct (_mediaCounter s || mediaCounter_resolves f) eqn:Hmc.
    + rewrite tick_with_handles by done.
      set (s0 := set_mediaCounter true (set_userinput true s)).
      assert (tips_inv s0) as Hinv0 by exact Hinv.
      destruct (performStep_on_record f top s0 m Hinv0 Hst)
        as (s1 & m1 & Heq1 & Hst1 & Hle1 & Htop1 & Hoth1 & _ & _ & _ & Hinv1).
      destruct (performStep_on_record f bottom s1 m1 Hinv1 Hst1)
        as (s2 & m2 & Heq2 & Hst2 & Hle2 & Hbot2 & Hoth2 & _ & _ & _ & Hinv2).
      simpl in Heq1, Heq2, Htop1, Hbot2.
      specialize (Hoth2 top). simpl in Hoth2.
      unfold evaluate, bind, gets. rewrite Heq1, Heq2.
      destruct (strict_neq _ _ || strict_neq _ _).
      * exists (emit (activeTips s2) s2), m1, m2. unfold modify.
        split_and!; try done. intros _ _. simpl.
        split; [|done]. rewrite Hoth2 by done. done.
      * exists s2, m1, m2. unfold ret.
        split_and!; try done. intros _ _.
        split; [|done]. rewrite Hoth2 by done. done.
    + apply orb_false_iff in Hmc as [Hmc1 Hmc2].
      rewrite tick_without_counter by done.
      exists (set_userinput true s), m, m. split_and!; try done.
      simpl. congruence.
  - apply orb_false_iff in Hin as [Hin1 Hin2].
    rewrite tick_without_input by done.
    exists s, m, m. split_and!; try done. congruence.
Qed.

(** With both exhaustion flags set, [tick] changes neither the flags nor
    what is shown. *)
Lemma tick_exhausted f s :
  at_top (finishedScopes s) = true → at_bottom (finishedScopes s) = true →
  finishedScopes (state_of (tick f s)) = finishedScopes s ∧
  activeTips (state_of (tick f s)) = activeTips s.
Proof.
  intros Ht Hb. unfold tick.
  destruct (_userinput s || userinput_resolves f) eqn:Hin.
  - destruct (_mediaCounter s || mediaCounter_resolves f) eqn:Hmc.
    + rewrite tick_with_handles by done.
      unfold evaluate, bind, gets. rewrite performStep_unfold. simpl.
      rewrite Ht. rewrite performStep_unfold. simpl. rewrite Hb.
      by destruct (strict_neq _ _ || strict_neq _ _).
    + apply orb_false_iff in Hmc as [Hmc1 Hmc2].
      by rewrite tick_without_counter.
  - apply orb_false_iff in Hin as [Hin1 Hin2].
    by rewrite tick_without_input.
Qed.

(** ** Marking on a record, and the growth of the record *)

Lemma markTipsFinished_record tips : ∀ s m,
  localStorage s = Item (JRecord m) →
  ∃ s' m',
    markTipsFinished tips s = Ok tt s' ∧
    localStorage s' = Item (JRecord m') ∧
    (∀ x, has_finished_entry m' x = true ↔
          (x ∈ tips ∧ x ≠ "__proto__") ∨ has_finished_entry m x = true).
Proof.
  induction tips as [|tip rest IH]; intros s m Hst.
  - exists s, m. split_and!; try done. intros x. rewrite elem_of_nil. tauto.
  - simpl. unfold bind. rewrite (markTipFinished_record tip s m Hst).
    set (s1 := set_localStorageCache JNull _).
    destruct (IH s1 (with_entry tip m)) as (s' & m' & -> & Hst' & Hm');
      [done|].
    exists s', m'. split_and!; try done. intros x.
    rewrite Hm', has_finished_entry_with_entry, elem_of_cons.
    split; [intros [[Hx Hne]|[[-> Hne]|Hx]]|intros [[[-> | Hx] Hne]|Hx]];
      tauto.
Qed.

Lemma recorded_true s x :
  recorded s x = true →
  ∃ m, localStorage s = Item (JRecord m) ∧ has_finished_entry m x = true.
Proof.
  unfold recorded. destruct (record_of (localStorage s)) as [m|] eqn:Hrec;
    [|done].
  intros Hx. exists m. split; [by apply record_of_Some|done].
Qed.

Lemma grows_exec o s :
  tips_inv s → is_reset o = false → grows s (state_of (exec o s)).
Proof.
  intros Hinv Hnr x Hx. destruct (recorded_true s x Hx) as (m & Hst & Hm).
  destruct o as [f|fullTip sc|tip|]; simpl; [| | |done].
  - destruct (tick_on_record f s m Hinv Hst)
      as (s' & m1 & m' & Heq & Hst' & Hle1 & Hle2 & _).
    unfold exec, exec_with. fold (tick f). rewrite Heq. simpl.
    rewrite (recorded_record s' m') by done. auto.
  - unfold handleTipClose.
    match goal with |- context [markTipsFinished ?l s] =>
      destruct (markTipsFinished_record l s m Hst)
        as (s' & m' & -> & Hst' & Hm')
    end.
    simpl. rewrite (recorded_record s' m') by done. apply Hm'. by right.
  - rewrite (markTipFinished_record tip s m Hst). unfold recorded. simpl.
    apply has_finished_entry_with_entry. by right.
Qed.

Lemma has_reset_cons o ops :
  has_reset (o :: ops) = false → is_reset o = false ∧ has_reset ops = false.
Proof. simpl. by destruct (is_reset o). Qed.

Lemma grows_run ops : ∀ s,
  tips_inv s → has_reset ops = false → grows s (run ops s).
Proof.
  induction ops as [|o rest IH]; intros s Hinv Hnr x Hx; [done|].
  apply has_reset_cons in Hnr as [Ho Hrest]. simpl.
  apply (IH (state_of (exec o s)));
    [by apply tips_inv_exec; [apply no_reset_finds_store|]|done|].
  by apply grows_exec.
Qed.

(** ** The scope evaluator *)


Lemma scan_pure_marks f t post : ∀ pre m fc,
  validate f t = Some FINISH →
  (∀ x, x ∈ pre → selectable f m x = false) →
  has_finished_entry (scan_pure f m (pre ++ t :: post) fc).2 t = true.
Proof.
  induction pre as [|x pre IH]; intros m fc Ht Hpre; simpl.
  - destruct (has_finished_entry m t) eqn:Hfin.
    + by apply scan_pure_grows.
    + rewrite Ht. apply scan_pure_grows.
      apply has_finished_entry_insert. by left.
  - assert (∀ m', (∀ y, has_finished_entry m y = true →
                        has_finished_entry m' y = true) →
                  ∀ y, y ∈ pre → selectable f m' y = false) as Hmono.
    { intros m' Hle y Hy.
      assert (selectable f m y = false) as Hsel
        by (apply Hpre, elem_of_cons; by right).
      unfold selectable in *. apply andb_false_iff in Hsel as [Hsel|Hsel].
      - apply negb_false_iff in Hsel. by rewrite (Hle y Hsel).
      - rewrite Hsel. apply andb_false_r. }
    assert (selectable f m x = false) as Hx
      by (apply Hpre, elem_of_cons; by left).
    unfold selectable in Hx.
    destruct (has_finished_entry m x) eqn:Hfin.
    + apply IH; [done|]. by apply Hmono.
    + simpl in Hx. destruct (validate f x) as [[| |]|] eqn:Hv.
      * apply IH; [done|]. by apply Hmono.
      * by rewrite bool_decide_eq_true_2 in Hx.
      * apply IH; [done|]. apply Hmono. intros y Hy.
        apply has_finished_entry_insert. by right.
      * apply IH; [done|]. by apply Hmono.
Qed.

(** C3. When the scan of a list reaches a tip [t] (no tip before it is
    selectable) whose validator gives [FINISH], the step returns, [t] has a
    finished entry in the durable record afterwards, and the scope shows the
    first selectable tip among the tips after [t]: the scan went on past
    [t], and [t] itself is not the selection. *)
Theorem finish_marks_and_scan_continues f sc s m pre t post :
  coherent s → localStorage s = Item (JRecord m) →
  prop sc (finishedScopes s) = false →
  Forall (λ tip, is_Some (validate f tip)) (pre ++ t :: post) →
  (∀ x, x ∈ pre → selectable f m x = false) →
  has_finished_entry m t = false →
  validate f t = Some FINISH →
  ∃ s', _performStep f (pre ++ t :: post) sc s = Ok tt s' ∧
        recorded s' t = true ∧
        prop sc (activeTips s') = first_selectable f m post ∧
        prop sc (activeTips s') ≠ Tip (qualified t).
Proof.
  intros Hco Hst Hflag Hval Hpre Hfin Ht.
  destruct (performStep_record f _ sc s m Hst Hco Hval Hflag)
    as (c & Hc & Heq).
  eexists. split; [exact Heq|].
  assert (first_selectable f m (pre ++ t :: post) = first_selectable f m post)
    as Hfirst.
  { rewrite first_selectable_skips by done. unfold first_selectable. simpl.
    unfold selectable at 1. rewrite Ht.
    rewrite bool_decide_eq_false_2 by discriminate. by rewrite andb_false_r. }
  assert (first_selectable f m post ≠ Tip (qualified t)) as Hnot.
  { destruct (first_selectable_cases f m post)
      as [(pre' & x & post' & _ & _ & Hx & ->)|[_ ->]]; [|done].
    intros Heq'. injection Heq' as Heq'. apply qualified_inj in Heq'.
    subst x. unfold selectable in Hx. rewrite Ht in Hx.
    rewrite bool_decide_eq_false_2 in Hx by discriminate.
    by rewrite andb_false_r in Hx. }
  assert (∀ s0 : state, prop sc (activeTips
            (conclude sc (pre ++ t :: post)
               (scan_pure f m (pre ++ t :: post) 0).1 s0))
          = first_selectable f m post) as Hact.
  { intros s0. rewrite <- Hfirst, <- (scan_pure_chosen f m _ 0).
    unfold conclude. destruct (_ =? _); simpl; rewrite prop_assign;
      by destruct (decide (sc = sc)). }
  split_and!.
  - unfold recorded, conclude. destruct (_ =? _); simpl;
      by apply scan_pure_marks.
  - apply Hact.
  - by rewrite Hact.
Qed.

(** C2. Once a tip has a finished entry in the durable record (which is
    what a [FINISH] of its validator writes), the entry stays through every
    run of ticks, closes and marks without a reset, and every tick after
    such a run returns and, when it has evaluated the scopes (both handles
    resolved), shows the tip in neither scope, whatever the frame. *)
Theorem finished_tip_never_selected_again s t ops f :
  tips_inv s → recorded s t = true → has_reset ops = false →
  recorded (run ops s) t = true ∧
  ∃ s', tick f (run ops s) = Ok tt s' ∧ recorded s' t = true ∧
        (_userinput s' = true → _mediaCounter s' = true →
         ∀ sc, prop sc (activeTips s') ≠ Tip (qualified t)).
Proof.
  intros Hinv Ht Hnr.
  pose proof (grows_run ops s Hinv Hnr t Ht) as Ht'.
  pose proof (tips_inv_run ops s (no_resets_find_store ops Hnr) Hinv) as Hinv'.
  split; [done|].
  destruct (recorded_true _ _ Ht') as (m & Hst & Hm).
  destruct (tick_on_record f _ m Hinv' Hst)
    as (s' & m1 & m' & Heq & Hst' & Hle1 & Hle2 & _ & Hsel).
  exists s'. split; [done|]. split.
  - rewrite (recorded_record s' m') by done. auto.
  - intros Hu Hmc sc. destruct (Hsel Hu Hmc) as [Htop Hbot].
    destruct sc; simpl.
    + rewrite Htop. by apply first_selectable_not_finished.
    + rewrite Hbot. apply first_selectable_not_finished. auto.
Qed.

(** ** Closing a tip *)

Lemma split_dot_no_dot s : has_dot s = false → split_dot s = [s].
Proof.
  induction s as [|c s IH]; simpl; [done|].
  destruct (Ascii.eqb c ".")%char; [done|]. simpl. intros H.
  by rewrite (IH H).
Qed.

Lemma split_dot_prefixed pre rest :
  has_dot pre = false →
  split_dot (pre +:+ "." +:+ rest) = pre :: split_dot rest.
Proof.
  induction pre as [|c pre IH]; simpl; [done|].
  destruct (Ascii.eqb c ".")%char; [done|]. simpl. intros H.
  by rewrite (IH H).
Qed.

Lemma platformTips_not_proto sc x :
  x ∈ prop sc platformTips → x ≠ "__proto__".
Proof.
  intros Hin ->. pose proof (platformTips_validated idle_frame sc) as Hall.
  rewrite Forall_forall in Hall. by destruct (Hall _ Hin) as [r Hr].
Qed.

(** C5. On a durable record, [handleTipClose] of a qualified name
    [prefix.tip] (neither part holding a dot) returns; when [tip] is [invite]
    or [object_pin] the tips with a finished entry afterwards are [tip] and
    those that had one before; otherwise they are the tips of the scope's
    platform catalog and those that had one before. *)
Theorem handleTipClose_marks pre tip sc s m :
  has_dot pre = false → has_dot tip = false →
  localStorage s = Item (JRecord m) →
  ∃ s', handleTipClose (pre +:+ "." +:+ tip) sc s = Ok tt s' ∧
    ∀ x, recorded s' x = true ↔
         (if bool_decide (tip = "invite" ∨ tip = "object_pin")
          then x = tip
          else x ∈ prop sc platformTips) ∨ recorded s x = true.
Proof.
  intros Hpre Htip Hst. unfold handleTipClose.
  rewrite (split_dot_prefixed pre tip Hpre), (split_dot_no_dot tip Htip).
  simpl.
  match goal with |- context [markTipsFinished ?l s] =>
    destruct (markTipsFinished_record l s m Hst)
      as (s' & m' & -> & Hst' & Hm')
  end.
  exists s'. split; [done|]. intros x.
  rewrite (recorded_record s' m'), (recorded_record s m), Hm' by done.
  destruct (decide (tip = "invite" ∨ tip = "object_pin")) as [Hlocal|Hbulk].
  - rewrite (bool_decide_eq_true_2 _ Hlocal).
    rewrite (bool_decide_eq_true_2 (tip ∈ LOCAL_CLOSE_TIPS)).
    2: { unfold LOCAL_CLOSE_TIPS. rewrite !elem_of_cons. tauto. }
    rewrite list_elem_of_singleton.
    split; [intros [[-> _]|Hx]; by auto|intros [-> | Hx]; [|by auto]].
    left. split; [done|]. by destruct Hlocal as [-> | ->].
  - rewrite (bool_decide_eq_false_2 _ Hbulk).
    rewrite (bool_decide_eq_false_2 (tip ∈ LOCAL_CLOSE_TIPS)).
    2: { unfold LOCAL_CLOSE_TIPS. rewrite !elem_of_cons, elem_of_nil. tauto. }
    split; [intros [[Hx _]|Hx]; by auto|intros [Hx|Hx]; [|by auto]].
    left. split; [done|]. by apply (platformTips_not_proto sc).
Qed.

(** ** The change notification *)

(** C6. A tick that returns appends to the emitted events exactly one
    [tips_changed], carrying [activeTips], when [activeTips.top] or
    [activeTips.bottom] differs from its value before the tick, and nothing
    when both are the same. *)
Theorem tick_emits_once_iff_changed f s s' :
  tick f s = Ok tt s' →
  emitted s' =
    emitted s ++
    (if bool_decide (at_top (activeTips s') = at_top (activeTips s) ∧
                     at_bottom (activeTips s') = at_bottom (activeTips s))
     then [] else [activeTips s']).
Proof.
  unfold tick.
  destruct (_userinput s || userinput_resolves f) eqn:Hin.
  - destruct (_mediaCounter s || mediaCounter_resolves f) eqn:Hmc.
    + rewrite tick_with_handles by done.
      set (s0 := set_mediaCounter true (set_userinput true s)).
      unfold evaluate, bind, gets.
      pose proof (performStep_rest f (at_top platformTips) top s0)
        as (_ & _ & He1).
      destruct (_performStep f (at_top platformTips) top s0)
        as [[] s1|e s1]; [|done].
      pose proof (performStep_rest f (at_bottom platformTips) bottom s1)
        as (_ & _ & He2).
      destruct (_performStep f (at_bottom platformTips) bottom s1)
        as [[] s2|e s2]; [|done].
      simpl in He1, He2. unfold strict_neq.
      change (at_top (activeTips s0)) with (at_top (activeTips s)).
      change (at_bottom (activeTips s0)) with (at_bottom (activeTips s)).
      destruct (decide (at_top (activeTips s) = at_top (activeTips s2)))
        as [Ht|Ht];
        destruct (decide (at_bottom (activeTips s)
                          = at_bottom (activeTips s2))) as [Hb|Hb];
        rewrite ?(bool_decide_eq_true_2 _ Ht), ?(bool_decide_eq_true_2 _ Hb),
          ?(bool_decide_eq_false_2 _ Ht), ?(bool_decide_eq_false_2 _ Hb);
        simpl; unfold modify, ret; intros Heq; injection Heq as <-; simpl;
        rewrite He2, He1.
      * rewrite bool_decide_eq_true_2 by done. by rewrite app_nil_r.
      * rewrite bool_decide_eq_false_2 by (intros [_ H]; congruence). done.
      * rewrite bool_decide_eq_false_2 by (intros [H _]; congruence). done.
      * rewrite bool_decide_eq_false_2 by (intros [H _]; congruence). done.
    + apply orb_false_iff in Hmc as [Hmc1 Hmc2].
      rewrite tick_without_counter by done. intros Heq. injection Heq as <-.
      simpl. rewrite bool_decide_eq_true_2 by done. by rewrite app_nil_r.
  - apply orb_false_iff in Hin as [Hin1 Hin2].
    rewrite tick_without_input by done. intros Heq. injection Heq as <-.
    rewrite bool_decide_eq_true_2 by done. by rewrite app_nil_r.
Qed.

(** ** The exhaustion flag *)

(** X24. From [init] on any stored item and after any run of ticks, closes,
    marks and resets in which every reset finds the store, the system with
    the exhaustion shortcut and the system that re-walks every catalog hold
    the same durable record, show the same [activeTips], have emitted the
    same events; and in the states they have reached, the step of either
    kind for any scope and frame returns or throws alike and leaves the same
    selection. *)
Theorem shortcut_refines_rewalk stored ops :
  resets_find_store ops = true →
  same_view (run ops (init stored)) (run_full ops (init stored)) ∧
  ∀ f sc,
    let o := _performStep f (prop sc platformTips) sc
               (run ops (init stored)) in
    let o' := _performStep_full f (prop sc platformTips) sc
                (run_full ops (init stored)) in
    returned o = returned o' ∧ same_view (state_of o) (state_of o').
Proof.
  intros Hok.
  pose proof (sim_run ops _ _ Hok (sim_refl _ (tips_inv_init stored))) as Hsim.
  split; [apply Hsim|]. intros f sc.
  destruct (sim_performStep f sc _ _ Hsim) as [Hr Hs].
  split; [done|apply Hs].
Qed.

(** ** Validators *)

(** C8. In a frame without a store, with the scene frozen and a positive
    count, the four validators gated by the store's activity flags give
    [VALID]. *)
Theorem activity_gated_validators_default_valid f tip :
  store f = None → scene_is f "frozen" = true → 0 < count f →
  tip ∈ ["object_rotate_button"; "object_scale_button";
         "object_recenter_button"; "object_pin"] →
  validate f tip = Some VALID.
Proof.
  intros Hstore Hfrozen Hcount Hin.
  assert ((count f =? 0) = false) as Hc by (apply Nat.eqb_neq; lia).
  repeat (apply elem_of_cons in Hin as [-> | Hin]);
    [..|by apply elem_of_nil in Hin];
    unfold validate; simpl;
    unfold object_rotate_button, object_scale_button,
      object_recenter_button, object_pin;
    by rewrite Hfrozen, Hc, Hstore.
Qed.

(** C9. Each of the five mode validators gives [VALID] when its set or
    scene flag holds and [INVALID] when it does not; none gives [FINISH]. *)
Theorem mode_validators_reflect_flags f :
  validate f "pen_mode"
  = Some (if activeSets_has (the_userinput f) cursorHoldingPen
          then VALID else INVALID) ∧
  validate f "freeze_mode"
  = Some (if scene_is f "frozen" then VALID else INVALID) ∧
  validate f "video_share_mode"
  = Some (if scene_is f "sharing_video" then VALID else INVALID) ∧
  validate f "mirror_mode"
  = Some (if scene_is f "mirroring" then VALID else INVALID) ∧
  validate f "mute_mode"
  = Some (if scene_is f "muted" then VALID else INVALID) ∧
  Forall (λ tip, validate f tip ≠ Some FINISH)
       ["pen_mode"; "freeze_mode"; "video_share_mode"; "mirror_mode";
        "mute_mode"].
Proof.
  split_and!; try done.
  - unfold validate; simpl. unfold pen_mode.
    by destruct (activeSets_has _ _).
  - repeat (apply Forall_cons; split); [..|apply Forall_nil_2];
      unfold validate; simpl.
    + unfold pen_mode. by destruct (activeSets_has _ _).
    + unfold freeze_mode. by destruct (scene_is f _).
    + unfold video_share_mode. by destruct (scene_is f _).
    + unfold mirror_mode. by destruct (scene_is f _).
    + unfold mute_mode. by destruct (scene_is f _).
Qed.

(** ** The durable record at start-up *)


(** ** Exhausted scopes stay so *)

Lemma exec_exhausted o s :
  is_reset o = false → finishedScopes s = PerScope true true →
  finishedScopes (state_of (exec o s)) = finishedScopes s ∧
  activeTips (state_of (exec o s)) = activeTips s.
Proof.
  intros Hnr Hfs. destruct o as [f|fullTip sc|tip|]; simpl; [| | |done].
  - apply tick_exhausted; by rewrite Hfs.
  - unfold handleTipClose.
    match goal with |- context [markTipsFinished ?l s] =>
      pose proof (markTipsFinished_rest l s) as H
    end.
    unfold rest_of in H. injection H as H1 H2 _ _ _. by split.
  - pose proof (markTipFinished_rest tip s) as H.
    unfold rest_of in H. injection H as H1 H2 _ _ _. by split.
Qed.

Lemma run_exhausted ops : ∀ s,
  has_reset ops = false → finishedScopes s = PerScope true true →
  finishedScopes (run ops s) = finishedScopes s ∧
  activeTips (run ops s) = activeTips s.
Proof.
  induction ops as [|o rest IH]; intros s Hnr Hfs; [done|].
  apply has_reset_cons in Hnr as [Ho Hrest].
  change (run (o :: rest) s) with (run rest (state_of (exec o s))).
  destruct (exec_exhausted o s Ho Hfs) as [Hf Ha].
  destruct (IH (state_of (exec o s)) Hrest) as [Hf' Ha']; [congruence|].
  split; congruence.
Qed.

(** ** More on the loop: what it marks, and when it has nothing left to mark *)

(** The loop adds an entry only for a tip of the list whose validator gives
    [FINISH]. *)
Lemma scan_pure_marks_only f tips : ∀ m fc x,
  has_finished_entry (scan_pure f m tips fc).2 x = true →
  has_finished_entry m x = true ∨ (x ∈ tips ∧ validate f x = Some FINISH).
Proof.
  induction tips as [|tip rest IH]; intros m fc x Hx; simpl in Hx; [by left|].
  assert (∀ m' fc', has_finished_entry (scan_pure f m' rest fc').2 x = true →
                    (has_finished_entry m' x = true → has_finished_entry m x = true ∨
                       (x ∈ tip :: rest ∧ validate f x = Some FINISH)) →
                    has_finished_entry m x = true ∨
                    (x ∈ tip :: rest ∧ validate f x = Some FINISH)) as Hrec.
  { intros m' fc' H Hm'. destruct (IH m' fc' x H) as [H'|[Hin Hv]]; [auto|].
    right. split; [|done]. apply elem_of_cons. by right. }
  destruct (has_finished_entry m tip); [apply (Hrec _ _ Hx); auto|].
  destruct (validate f tip) as [[| |]|] eqn:Hv; simpl in Hx;
    try (apply (Hrec _ _ Hx); by auto).
  - by left.
  - apply (Hrec _ _ Hx). intros H.
    apply has_finished_entry_insert in H as [-> | H]; [|by left].
    right. split; [|done]. apply elem_of_cons. by left.
Qed.

(** A record [m2] that holds what the loop would mark from [m], and beyond
    [m] only tips whose validator gives [FINISH], is left as it is by the
    loop, which chooses as from [m]. *)
Lemma scan_pure_settled f tips : ∀ m m2 fc fc2,
  (∀ x, has_finished_entry m x = true → has_finished_entry m2 x = true) →
  (∀ x, has_finished_entry m2 x = true →
        has_finished_entry m x = true ∨ validate f x = Some FINISH) →
  (∀ x, has_finished_entry (scan_pure f m tips fc).2 x = true →
        has_finished_entry m2 x = true) →
  (scan_pure f m2 tips fc2).2 = m2 ∧
  (scan_pure f m2 tips fc2).1.1 = (scan_pure f m tips fc).1.1.
Proof.
  induction tips as [|tip rest IH]; intros m m2 fc fc2 Hle Hge Hmarks; [done|].
  simpl in *. destruct (has_finished_entry m tip) eqn:Hfin.
  - rewrite (Hle tip Hfin). by apply IH.
  - destruct (validate f tip) as [[| |]|] eqn:Hv.
    + destruct (has_finished_entry m2 tip) eqn:Hfin2.
      { destruct (Hge tip Hfin2) as [H|H]; congruence. }
      by apply IH.
    + destruct (has_finished_entry m2 tip) eqn:Hfin2; [|done].
      destruct (Hge tip Hfin2) as [H|H]; congruence.
    + assert (has_finished_entry m2 tip = true) as ->.
      { apply Hmarks, scan_pure_grows, has_finished_entry_insert. by left. }
      apply (IH (<[tip := true]> m)); [| |done].
      * intros x Hx. apply has_finished_entry_insert in Hx as [-> | Hx];
          [|by apply Hle].
        apply Hmarks, scan_pure_grows, has_finished_entry_insert. by left.
      * intros x Hx. destruct (Hge x Hx) as [H|H]; [|by right].
        left. apply has_finished_entry_insert. by right.
    + destruct (has_finished_entry m2 tip) eqn:Hfin2.
      { destruct (Hge tip Hfin2) as [H|H]; congruence. }
      by apply IH.
Qed.

(** The step of a scope on a record, with the record it leaves. *)
Lemma performStep_exact f sc s m :
  tips_inv s → localStorage s = Item (JRecord m) →
  ∃ s',
    _performStep f (prop sc platformTips) sc s = Ok tt s' ∧
    localStorage s' = Item (JRecord (scan_pure f m (prop sc platformTips) 0).2) ∧
    prop sc (activeTips s') = (scan_pure f m (prop sc platformTips) 0).1.1 ∧
    ((∀ x, x ∈ prop sc platformTips → has_finished_entry m x = true) →
     prop sc (finishedScopes s') = true) ∧
    (∀ sc', sc' ≠ sc →
            prop sc' (activeTips s') = prop sc' (activeTips s) ∧
            prop sc' (finishedScopes s') = prop sc' (finishedScopes s)) ∧
    _userinput s' = _userinput s ∧ _mediaCounter s' = _mediaCounter s ∧
    emitted s' = emitted s ∧ tips_inv s'.
Proof.
  intros Hinv Hst.
  assert (tips_inv (state_of (_performStep f (prop sc platformTips) sc s)))
    as Hinv'.
  { by destruct (sim_performStep f sc s s (sim_refl s Hinv)) as [_ [? _]]. }
  destruct Hinv as [Hco Hfl].
  destruct (prop sc (finishedScopes s)) eqn:Hflag.
  - rewrite performStep_unfold, Hflag in *. exists s.
    destruct (Hfl sc Hflag) as [Hnull Hall].
    rewrite scan_pure_all_finished.
    2: { intros tip Hin. rewrite <- (recorded_record s m) by done.
         by apply Hall. }
    by split_and!.
  - destruct (performStep_record f _ sc s m Hst Hco
                (platformTips_validated f sc) Hflag) as (c & Hc & Heq).
    rewrite Heq in *. eexists. split; [done|].
    split_and!; [..|exact Hinv']; unfold conclude;
      try (by destruct (_ =? _)).
    + destruct (_ =? _); simpl; rewrite prop_assign;
        by destruct (decide (sc = sc)).
    + intros Hall. rewrite (scan_pure_all_finished f _ m 0 Hall). simpl.
      rewrite Nat.eqb_refl. simpl. rewrite prop_assign.
      by destruct (decide (sc = sc)).
    + intros sc' Hne. destruct (_ =? _); simpl; rewrite !prop_assign;
        by destruct (decide (sc' = sc)).
Qed.

(** A tick that evaluates, on a record: the record after the top scan is
    [ma], after the bottom scan [mb]. *)
Lemma tick_exact f s m :
  tips_inv s → localStorage s = Item (JRecord m) →
  _userinput s || userinput_resolves f = true →
  _mediaCounter s || mediaCounter_resolves f = true →
  let ma := (scan_pure f m (at_top platformTips) 0).2 in
  let mb := (scan_pure f ma (at_bottom platformTips) 0).2 in
  ∃ s',
    tick f s = Ok tt s' ∧ tips_inv s' ∧
    localStorage s' = Item (JRecord mb) ∧
    at_top (activeTips s') = (scan_pure f m (at_top platformTips) 0).1.1 ∧
    at_bottom (activeTips s') = (scan_pure f ma (at_bottom platformTips) 0).1.1 ∧
    ((∀ x, x ∈ at_top platformTips → has_finished_entry m x = true) →
     at_top (finishedScopes s') = true) ∧
    ((∀ x, x ∈ at_bottom platformTips → has_finished_entry ma x = true) →
     at_bottom (finishedScopes s') = true) ∧
    _userinput s' = true ∧ _mediaCounter s' = true ∧
    emitted s' = emitted s ++
                 (if bool_decide (activeTips s' = activeTips s) then []
                  else [activeTips s']).
Proof.
  intros Hinv Hst Hin Hmc ma mb. unfold tick.
  rewrite tick_with_handles by done.
  set (s0 := set_mediaCounter true (set_userinput true s)).
  assert (tips_inv s0) as Hinv0 by exact Hinv.
  destruct (performStep_exact f top s0 m Hinv0 Hst)
    as (s1 & Heq1 & Hst1 & Htop1 & Hfl1 & Hoth1 & Hu1 & Hm1 & He1 & Hinv1).
  destruct (performStep_exact f bottom s1 _ Hinv1 Hst1)
    as (s2 & Heq2 & Hst2 & Hbot2 & Hfl2 & Hoth2 & Hu2 & Hm2 & He2 & Hinv2).
  simpl in Heq1, Heq2, Htop1, Hbot2, Hfl1, Hfl2, Hst1, Hst2.
  destruct (Hoth2 top) as [Hat Hft]; [done|]. simpl in Hat, Hft.
  unfold evaluate, bind, gets. rewrite Heq1, Heq2.
  change (at_top (activeTips s0)) with (at_top (activeTips s)).
  change (at_bottom (activeTips s0)) with (at_bottom (activeTips s)).
  assert (strict_neq (at_top (activeTips s)) (at_top (activeTips s2))
          || strict_neq (at_bottom (activeTips s)) (at_bottom (activeTips s2))
          = negb (bool_decide (activeTips s2 = activeTips s))) as ->.
  { unfold strict_neq. destruct (activeTips s) as [a b], (activeTips s2) as [a2 b2].
    simpl. destruct (decide (a = a2)) as [-> | Ha];
      destruct (decide (b = b2)) as [-> | Hb];
      rewrite ?bool_decide_eq_true_2 by done;
      rewrite ?(bool_decide_eq_false_2 (a = a2)) by done;
      rewrite ?(bool_decide_eq_false_2 (b = b2)) by done; simpl;
      try (rewrite bool_decide_eq_false_2 by congruence); done. }
  assert (_userinput s2 = true) as Hu by (by rewrite Hu2, Hu1).
  assert (_mediaCounter s2 = true) as Hm by (by rewrite Hm2, Hm1).
  assert (emitted s2 = emitted s) as He by (by rewrite He2, He1).
  destruct (decide (activeTips s2 = activeTips s)) as [Hsame|Hdiff].
  - rewrite (bool_decide_eq_true_2 _ Hsame). simpl. exists s2. unfold ret.
    rewrite (bool_decide_eq_true_2 _ Hsame), app_nil_r.
    split_and!; try done; try congruence.
    intros Hall. rewrite Hft. by apply Hfl1.
  - rewrite (bool_decide_eq_false_2 _ Hdiff). simpl.
    exists (emit (activeTips s2) s2). unfold modify. simpl.
    rewrite (bool_decide_eq_false_2 _ Hdiff).
    split_and!; try done; try congruence.
    intros Hall. rewrite Hft. by apply Hfl1.
Qed.

(** ** Whole ticks on a record *)

Lemma scan_pure_chosen_after f m tips tips' :
  (scan_pure f (scan_pure f m tips 0).2 tips' 0).1.1
  = first_selectable f m tips'.
Proof.
  apply scan_pure_chosen_gen.
  - intros x Hx. by apply scan_pure_grows.
  - intros x Hx. apply scan_pure_marks_only in Hx as [Hx|[_ Hx]]; auto.
Qed.


(** X2. A tick on a record never removes a finished entry, and adds one only
    for a tip of a catalog whose validator gives [FINISH] in the frame. *)
Theorem tick_marks_only_finish f s m :
  tips_inv s → localStorage s = Item (JRecord m) →
  ∃ s' m', tick f s = Ok tt s' ∧ localStorage s' = Item (JRecord m') ∧
    ∀ x, (has_finished_entry m x = true → has_finished_entry m' x = true) ∧
         (has_finished_entry m' x = true →
          has_finished_entry m x = true ∨
          ((x ∈ at_top platformTips ∨ x ∈ at_bottom platformTips) ∧
           validate f x = Some FINISH)).
Proof.
  intros Hinv Hst.
  destruct (_userinput s || userinput_resolves f) eqn:Hin.
  - destruct (_mediaCounter s || mediaCounter_resolves f) eqn:Hmc.
    + destruct (tick_exact f s m Hinv Hst Hin Hmc)
        as (s' & Heq & _ & Hst' & _).
      eexists s', _. split; [done|]. split; [done|]. intros x. split.
      * intros Hx. by do 2 apply scan_pure_grows.
      * intros Hx. apply scan_pure_marks_only in Hx as [Hx|[Hb Hx]]; [|by auto].
        apply scan_pure_marks_only in Hx as [Hx|[Ht Hx]]; by auto.
    + apply orb_false_iff in Hmc as [Hmc1 Hmc2]. unfold tick.
      rewrite tick_without_counter by done.
      exists (set_userinput true s), m. split_and!; by auto.
  - apply orb_false_iff in Hin as [Hin1 Hin2]. unfold tick.
    rewrite tick_without_input by done.
    exists s, m. split_and!; by auto.
Qed.

(** X3. Ticking twice on the same frame is the same as ticking once, as far
    as the outside sees: the second tick returns, writes nothing to the
    record, shows what the first showed and emits nothing. *)
Theorem tick_twice_same_frame f s m :
  tips_inv s → localStorage s = Item (JRecord m) →
  ∃ s1 s2, tick f s = Ok tt s1 ∧ tick f s1 = Ok tt s2 ∧
           localStorage s2 = localStorage s1 ∧
           activeTips s2 = activeTips s1 ∧
           emitted s2 = emitted s1.
Proof.
  intros Hinv Hst.
  destruct (_userinput s || userinput_resolves f) eqn:Hin.
  - destruct (_mediaCounter s || mediaCounter_resolves f) eqn:Hmc.
    + destruct (tick_exact f s m Hinv Hst Hin Hmc)
        as (s1 & Heq1 & Hinv1 & Hst1 & Htop1 & Hbot1 & _ & _ & Hu1 & Hm1 & _).
      set (ma := (scan_pure f m (at_top platformTips) 0).2) in *.
      set (mb := (scan_pure f ma (at_bottom platformTips) 0).2) in *.
      destruct (tick_exact f s1 mb Hinv1 Hst1)
        as (s2 & Heq2 & _ & Hst2 & Htop2 & Hbot2 & _ & _ & _ & _ & He2);
        [by rewrite Hu1|by rewrite Hm1|].
      assert (∀ x, has_finished_entry m x = true →
                   has_finished_entry ma x = true) as Hle1.
      { intros x Hx. by apply scan_pure_grows. }
      assert (∀ x, has_finished_entry ma x = true →
                   has_finished_entry mb x = true) as Hle2.
      { intros x Hx. by apply scan_pure_grows. }
      assert (∀ x, has_finished_entry ma x = true →
                   has_finished_entry m x = true ∨ validate f x = Some FINISH)
        as Hge1.
      { intros x Hx. apply scan_pure_marks_only in Hx as [Hx|[_ Hx]]; auto. }
      assert (∀ x, has_finished_entry mb x = true →
                   has_finished_entry ma x = true ∨ validate f x = Some FINISH)
        as Hge2.
      { intros x Hx. apply scan_pure_marks_only in Hx as [Hx|[_ Hx]]; auto. }
      destruct (scan_pure_settled f (at_top platformTips) m mb 0 0)
        as [Hm_top Hch_top]; [by auto| |by auto|].
      { intros x Hx. destruct (Hge2 x Hx) as [H|H]; by auto. }
      rewrite Hm_top in Hst2, Hbot2.
      destruct (scan_pure_settled f (at_bottom platformTips) ma mb 0 0)
        as [Hm_bot Hch_bot]; [by auto|by auto|by auto|].
      rewrite Hm_bot in Hst2.
      assert (activeTips s2 = activeTips s1) as Hact.
      { destruct (activeTips s2), (activeTips s1). simpl in *. congruence. }
      exists s1, s2. split_and!; try done; [congruence|].
      by rewrite He2, (bool_decide_eq_true_2 _ Hact), app_nil_r.
    + apply orb_false_iff in Hmc as [Hmc1 Hmc2]. unfold tick.
      exists (set_userinput true s), (set_userinput true (set_userinput true s)).
      by rewrite !tick_without_counter.
  - apply orb_false_iff in Hin as [Hin1 Hin2]. unfold tick.
    exists s, s. by rewrite !tick_without_input.
Qed.

(** ** The durable record: marks, queries and the reset *)


Lemma with_entry_comm a b m :
  with_entry a (with_entry b m) = with_entry b (with_entry a m).
Proof.
  unfold with_entry.
  destruct (String.eqb a "__proto__"), (String.eqb b "__proto__"); try done.
  destruct (decide (a = b)) as [-> | Hne]; [done|].
  by rewrite (insert_insert_ne m a b).
Qed.

Lemma with_entry_twice a m : with_entry a (with_entry a m) = with_entry a m.
Proof.
  unfold with_entry. destruct (String.eqb a "__proto__"); [done|].
  by rewrite insert_insert_eq.
Qed.

Lemma markTipFinished_swap a b (k : M unit) s :
  (let! _ := markTipFinished a in let! _ := markTipFinished b in k) s
  = (let! _ := markTipFinished b in let! _ := markTipFinished a in k) s.
Proof.
  unfold bind. destruct (record_of (localStorage s)) as [m|] eqn:Hrec.
  - apply record_of_Some in Hrec.
    rewrite (markTipFinished_record a s m Hrec).
    rewrite (markTipFinished_record b s m Hrec).
    rewrite (markTipFinished_record b _ (with_entry a m)) by done.
    rewrite (markTipFinished_record a _ (with_entry b m)) by done.
    simpl. by rewrite (with_entry_comm a b m).
  - destruct (markTipFinished_no_record a s Hrec) as [e1 H1].
    destruct (markTipFinished_no_record b s Hrec) as [e2 H2].
    rewrite H1, H2. f_equal.
    destruct s as [[| |[|m]] c fs act u mc ev]; try done;
      unfold markTipFinished, parse_stored, bind, gets, throw, ret in *;
      simpl in *; congruence.
Qed.

(** X5. The outcome of marking a list of tips, as [handleTipClose] does,
    depends neither on the order of the list nor on repetitions in it: lists
    that are permutations of each other give the same outcome and the same
    state, and a tip listed twice in a row counts once. *)
Theorem markTipsFinished_order_and_repeats tips tips' s :
  tips ≡ₚ tips' →
  markTipsFinished tips s = markTipsFinished tips' s ∧
  ∀ tip, markTipsFinished (tip :: tip :: tips) s
         = markTipsFinished (tip :: tips) s.
Proof.
  intros Hperm. split.
  - revert s. induction Hperm as [|x l l' _ IH|x y l|l l' l'' _ IH1 _ IH2];
      intros s.
    + done.
    + simpl. unfold bind. destruct (markTipFinished x s); [apply IH|done].
    + apply (markTipFinished_swap y x (markTipsFinished l) s).
    + by rewrite IH1.
  - intros tip. simpl. unfold bind.
    destruct (record_of (localStorage s)) as [m|] eqn:Hrec.
    + apply record_of_Some in Hrec.
      rewrite (markTipFinished_record tip s m Hrec).
      rewrite (markTipFinished_record tip _ (with_entry tip m)) by done.
      simpl. by rewrite with_entry_twice.
    + by destruct (markTipFinished_no_record tip s Hrec) as [e ->].
Qed.

Lemma resetTips_state act s :
  ∃ s0, resetTips (Some act) s = Ok tt s0 ∧ tips_inv s0 ∧
        localStorage s0 = Item (JRecord ∅) ∧
        _userinput s0 = _userinput s ∧ _mediaCounter s0 = _mediaCounter s.
Proof.
  eexists. split; [reflexivity|]. split_and!; try done.
  split; [by left|]. intros sc Hsc. by destruct sc.
Qed.

(** X6. [resetTips] leaves the empty record and an empty cache in every
    state, a corrupt store included, so that every tip is reported not
    finished afterwards; it does not touch [activeTips] and emits nothing, so
    a tip on show stays on show until the next tick.  When [window.APP.store]
    is there it returns and has cleared the exhaustion flags; when the store
    is absent it throws [TypeError] after clearing the record and leaves the
    exhaustion flags as they were. *)
Theorem resetTips_clears store s tip :
  ∃ s0, resetTips store s
        = match store with
          | Some _ => Ok tt s0
          | None => Throw TypeError s0
          end ∧
        localStorage s0 = Item (JRecord ∅) ∧
        localStorageCache s0 = JNull ∧
        finishedScopes s0
        = match store with
          | Some _ => PerScope false false
          | None => finishedScopes s
          end ∧
        activeTips s0 = activeTips s ∧ emitted s0 = emitted s ∧
        returned (isTipFinished tip s0) = Some false.
Proof. destruct store as [act|]; eexists; by split_and!. Qed.

(** X7. When [window.APP.store] is there, a tick that evaluates right after
    a reset shows, in both scopes, the first tip of the catalog whose
    validator gives [VALID], as on a first run: no earlier finish or close is
    remembered. *)
Theorem reset_then_tick_is_fresh f act s :
  store f = Some act →
  _userinput s || userinput_resolves f = true →
  _mediaCounter s || mediaCounter_resolves f = true →
  ∃ s', (let! _ := resetTips (store f) in tick f) s = Ok tt s' ∧
        ∀ sc, prop sc (activeTips s')
              = first_selectable f ∅ (prop sc platformTips).
Proof.
  intros Hstore Hin Hmc. rewrite Hstore.
  destruct (resetTips_state act s) as (s0 & Heq0 & Hinv0 & Hst0 & Hu0 & Hm0).
  unfold bind. rewrite Heq0.
  destruct (tick_exact f s0 ∅ Hinv0 Hst0)
    as (s' & Heq & _ & _ & Htop & Hbot & _);
    [by rewrite Hu0|by rewrite Hm0|].
  exists s'. split; [done|]. intros [|]; simpl.
  - by rewrite Htop, scan_pure_chosen.
  - by rewrite Hbot, scan_pure_chosen_after.
Qed.

(** ** Invariants from [init] on *)

Lemma loose_inv_init stored : loose_inv (init stored).
Proof. split; [by left|]. intros _ sc Hsc. by destruct sc. Qed.

Lemma performStep_loose f sc s :
  loose_inv s →
  loose_inv (state_of (_performStep f (prop sc platformTips) sc s)).
Proof.
  intros [Hco Hfl]. rewrite performStep_unfold.
  destruct (prop sc (finishedScopes s)) eqn:Hflag; [done|].
  destruct (record_of (localStorage s)) as [m|] eqn:Hrec.
  - apply record_of_Some in Hrec.
    destruct (scan_record f (prop sc platformTips) 0 s m Hrec Hco
                (platformTips_validated f sc)) as (c & Hc & ->).
    simpl. unfold conclude. split.
    + unfold coherent. destruct (_ =? _); simpl;
        (destruct Hc as [-> | ->]; [by left|by right]).
    + intros Hnone. by destruct (_ =? _).
  - pose proof (coherent_no_record s Hrec Hco) as Hc.
    destruct (prop sc platformTips) as [|tip rest] eqn:HT.
    + simpl. unfold ret, conclude. simpl. split; [done|].
      intros _ sc' Hsc'. simpl in Hsc'. rewrite prop_assign in Hsc'.
      destruct (decide (sc' = sc)) as [-> | Hne]; [done|by apply Hfl].
    + destruct (scan_no_record f tip rest 0 s Hrec Hc) as [e ->].
      split; [done|]. intros _. by apply Hfl.
Qed.

Lemma evaluate_loose f s :
  loose_inv s → loose_inv (state_of (evaluate _performStep f s)).
Proof.
  intros H. unfold evaluate, bind, gets.
  pose proof (performStep_loose f top s H) as H1. simpl in H1.
  destruct (_performStep f (at_top platformTips) top s) as [[] s1|e s1];
    [|done].
  pose proof (performStep_loose f bottom s1 H1) as H2. simpl in H2.
  destruct (_performStep f (at_bottom platformTips) bottom s1)
    as [[] s2|e s2]; [|done].
  by destruct (strict_neq _ _ || strict_neq _ _).
Qed.

Lemma markTipFinished_loose tip s :
  loose_inv s → loose_inv (state_of (markTipFinished tip s)).
Proof.
  intros H. destruct (record_of (localStorage s)) as [m|] eqn:Hrec.
  - apply record_of_Some in Hrec.
    rewrite (markTipFinished_record tip s m Hrec). by split; [left|].
  - by destruct (markTipFinished_no_record tip s Hrec) as [e ->].
Qed.

Lemma markTipsFinished_loose tips : ∀ s,
  loose_inv s → loose_inv (state_of (markTipsFinished tips s)).
Proof.
  induction tips as [|tip rest IH]; intros s H; [done|].
  simpl. unfold bind. pose proof (markTipFinished_loose tip s H) as H1.
  destruct (markTipFinished tip s) as [[] s1|e s1]; [by apply IH|done].
Qed.

Lemma exec_loose o s : loose_inv s → loose_inv (state_of (exec o s)).
Proof.
  intros H. destruct o as [f|fullTip sc|tip|[act|]]; simpl.
  - fold (tick f). unfold tick.
    destruct (_userinput s || userinput_resolves f) eqn:Hin.
    + destruct (_mediaCounter s || mediaCounter_resolves f) eqn:Hmc.
      * rewrite tick_with_handles by done. by apply evaluate_loose.
      * apply orb_false_iff in Hmc as [Hmc1 Hmc2].
        by rewrite tick_without_counter.
    + apply orb_false_iff in Hin as [Hin1 Hin2].
      by rewrite tick_without_input.
  - by apply markTipsFinished_loose.
  - by apply markTipFinished_loose.
  - by split; [left|].
  - by split; [left|].
Qed.

Lemma run_loose ops : ∀ s, loose_inv s → loose_inv (run ops s).
Proof.
  induction ops as [|o rest IH]; intros s H; [done|].
  apply (IH (state_of (exec o s))). by apply exec_loose.
Qed.

(** X8. After [init] on any stored item and any run of ticks, closes, marks
    and resets, the cache is either to be reloaded or equal to what the
    stored item parses to; and when every reset of the run found the store, a
    scope whose exhaustion flag is set shows [null] and has every tip of its
    catalog recorded finished. *)
Theorem cache_and_flags_invariant stored ops :
  let s := run ops (init stored) in
  (localStorageCache s = JNull ∨ localStorage s = Item (localStorageCache s)) ∧
  (resets_find_store ops = true →
   ∀ sc, prop sc (finishedScopes s) = true →
         prop sc (activeTips s) = Null ∧
         ∀ tip, tip ∈ prop sc platformTips → recorded s tip = true).
Proof.
  split.
  - apply (run_loose ops _ (loose_inv_init stored)).
  - intros Hok. apply (tips_inv_run ops _ Hok (tips_inv_init stored)).
Qed.

Lemma scan_chosen_in f tips : ∀ fc s r s',
  scan f tips fc s = Ok r s' →
  r.1 = Null ∨ ∃ tip, tip ∈ tips ∧ r.1 = Tip (qualified tip).
Proof.
  induction tips as [|tip rest IH]; intros fc s r s' Heq; simpl in Heq.
  - injection Heq as <- _. by left.
  - assert (∀ fc1 s1, scan f rest fc1 s1 = Ok r s' →
             r.1 = Null ∨ ∃ t, t ∈ tip :: rest ∧ r.1 = Tip (qualified t))
      as Hrest.
    { intros fc1 s1 H. destruct (IH fc1 s1 r s' H) as [?|(t & Ht & ?)];
        [by left|]. right. exists t. split; [|done]. apply elem_of_cons.
      by right. }
    unfold bind at 1 in Heq.
    destruct (isTipFinished tip s) as [[|] s1|e s1]; [by eauto| |done].
    unfold bind at 1, call_validator in Heq.
    destruct (validate f tip) as [[| |]|]; unfold ret, throw in Heq;
      simpl in Heq; [by eauto| | |done].
    + injection Heq as <- _. right. exists tip. split; [|done].
      apply elem_of_cons. by left.
    + unfold bind at 1 in Heq.
      destruct (markTipFinished tip s1) as [[] s2|e s2]; [by eauto|done].
Qed.

Lemma shown_ok_same s s' :
  activeTips s' = activeTips s → shown_ok s → shown_ok s'.
Proof. intros Heq Hok sc. rewrite Heq. apply Hok. Qed.


Lemma performStep_shown f sc s :
  shown_ok s →
  shown_ok (state_of (_performStep f (prop sc platformTips) sc s)).
Proof.
  intros Hok. rewrite performStep_unfold.
  destruct (prop sc (finishedScopes s)); [done|].
  pose proof (scan_rest f (prop sc platformTips) 0 s) as Hrest.
  destruct (scan f (prop sc platformTips) 0 s) as [r s1|e s1] eqn:Hscan;
    simpl in *; unfold rest_of in Hrest; injection Hrest as _ Ha _ _ _.
  - intros sc'. unfold conclude.
    assert (prop sc' (activeTips
              (if r.2 =? length (prop sc platformTips)
               then set_finishedScopes
                      (assign sc true (finishedScopes
                         (set_activeTips (assign sc r.1 (activeTips s1)) s1)))
                      (set_activeTips (assign sc r.1 (activeTips s1)) s1)
               else set_activeTips (assign sc r.1 (activeTips s1)) s1))
            = if decide (sc' = sc) then r.1 else prop sc' (activeTips s)) as ->.
    { destruct (_ =? _); simpl; by rewrite prop_assign, Ha. }
    destruct (decide (sc' = sc)) as [-> | Hne]; [|apply Hok].
    destruct (scan_chosen_in f _ 0 s r s1 Hscan) as [-> | (tip & Hin & ->)];
      [done|by exists tip].
  - by apply (shown_ok_same s).
Qed.

Lemma evaluate_shown f s :
  shown_ok s → shown_ok (state_of (evaluate _performStep f s)).
Proof.
  intros Hok. unfold evaluate, bind, gets.
  pose proof (performStep_shown f top s Hok) as H1. simpl in H1.
  destruct (_performStep f (at_top platformTips) top s) as [[] s1|e s1];
    [|done].
  pose proof (performStep_shown f bottom s1 H1) as H2. simpl in *.
  destruct (_performStep f (at_bottom platformTips) bottom s1)
    as [[] s2|e s2]; [|done].
  by destruct (strict_neq _ _ || strict_neq _ _).
Qed.

Lemma exec_shown o s : shown_ok s → shown_ok (state_of (exec o s)).
Proof.
  intros Hok. destruct o as [f|fullTip sc|tip|store]; simpl.
  - fold (tick f). unfold tick.
    destruct (_userinput s || userinput_resolves f) eqn:Hin.
    + destruct (_mediaCounter s || mediaCounter_resolves f) eqn:Hmc.
      * rewrite tick_with_handles by done. by apply evaluate_shown.
      * apply orb_false_iff in Hmc as [Hmc1 Hmc2].
        by rewrite tick_without_counter.
    + apply orb_false_iff in Hin as [Hin1 Hin2].
      by rewrite tick_without_input.
  - unfold handleTipClose.
    match goal with |- context [markTipsFinished ?l s] =>
      pose proof (markTipsFinished_rest l s) as H
    end.
    unfold rest_of in H. injection H as _ Ha _ _ _. by apply (shown_ok_same s).
  - pose proof (markTipFinished_rest tip s) as H.
    unfold rest_of in H. injection H as _ Ha _ _ _. by apply (shown_ok_same s).
  - apply (shown_ok_same s); [|done]. by destruct store.
Qed.

(** X9. After [init] and any run, what [activeTips] holds for a scope is
    [undefined] (nothing assigned yet), [null], or the platform-qualified
    name of a tip of that scope's own catalog: never a tip of the other
    scope, of another platform, or an unknown name. *)
Theorem activeTips_well_formed stored ops sc :
  match prop sc (activeTips (run ops (init stored))) with
  | Tip q => ∃ tip, tip ∈ prop sc platformTips ∧ q = qualified tip
  | _ => True
  end.
Proof.
  assert (∀ s, shown_ok s → shown_ok (run ops s)) as Hrun.
  { induction ops as [|o rest IH]; intros s Hok; [done|].
    apply (IH (state_of (exec o s))). by apply exec_shown. }
  apply (Hrun (init stored)). intros sc'. by destruct sc'.
Qed.

(** ** The events against what is shown *)








Lemma strict_neq_same a : strict_neq a a = false.
Proof. unfold strict_neq. by rewrite bool_decide_eq_true_2. Qed.

(** X11. Once both exhaustion flags are set, a tick returns whatever the
    store holds, a corrupt item included, and changes nothing but the
    handles: the stored item and the cache stay as they are, it shows what
    was shown and emits nothing. *)
Theorem tick_on_exhausted_scopes f s :
  finishedScopes s = PerScope true true →
  ∃ s', tick f s = Ok tt s' ∧
        localStorage s' = localStorage s ∧
        localStorageCache s' = localStorageCache s ∧
        finishedScopes s' = finishedScopes s ∧
        activeTips s' = activeTips s ∧ emitted s' = emitted s.
Proof.
  intros Hfs. unfold tick.
  destruct (_userinput s || userinput_resolves f) eqn:Hin.
  - destruct (_mediaCounter s || mediaCounter_resolves f) eqn:Hmc.
    + rewrite tick_with_handles by done.
      unfold evaluate, bind, gets. rewrite performStep_unfold. simpl.
      rewrite Hfs. simpl. rewrite performStep_unfold. simpl. rewrite Hfs. simpl.
      rewrite !strict_neq_same. simpl. by eexists.
    + apply orb_false_iff in Hmc as [Hmc1 Hmc2].
      rewrite tick_without_counter by done. by eexists.
  - apply orb_false_iff in Hin as [Hin1 Hin2].
    rewrite tick_without_input by done. by eexists.
Qed.

(** X12. While a handle is missing, [tick] is a silent no-op in every state:
    it returns, leaves the stored item, the cache and the flags as they are,
    shows what was shown and emits nothing; the only thing it keeps is the
    input handle once that one resolves, and the counter handle is not
    looked up before. *)
Theorem tick_waits_for_handles f s :
  (_userinput s || userinput_resolves f)
  && (_mediaCounter s || mediaCounter_resolves f) = false →
  ∃ s', tick f s = Ok tt s' ∧
        localStorage s' = localStorage s ∧
        localStorageCache s' = localStorageCache s ∧
        finishedScopes s' = finishedScopes s ∧
        activeTips s' = activeTips s ∧ emitted s' = emitted s ∧
        _userinput s' = _userinput s || userinput_resolves f ∧
        _mediaCounter s' = _mediaCounter s.
Proof.
  intros Hnot. unfold tick.
  destruct (_userinput s || userinput_resolves f) eqn:Hin.
  - simpl in Hnot. apply orb_false_iff in Hnot as [Hmc1 Hmc2].
    rewrite tick_without_counter by done. eexists. by split_and!.
  - apply orb_false_iff in Hin as [Hin1 Hin2].
    rewrite tick_without_input by done. exists s. by split_and!.
Qed.

(** ** Validators across the table *)

Ltac split_ifs :=
  repeat match goal with
         | |- context [if ?b then _ else _] => destruct b eqn:?
         end.

Ltac each_validator :=
  repeat (apply Forall_cons; split); [..|apply Forall_nil_2];
  unfold validate; simpl;
  unfold look, locomotion, turning, spawn_menu, freeze_gesture, menu_hover,
    invite, object_grab, object_zoom, object_scale, pen_color, pen_size,
    pen_mode, freeze_mode, object_rotate_button, object_scale_button,
    object_recenter_button, object_pin.

(** X13. While the pen is held, every general tip ([look], [locomotion],
    [turning], [spawn_menu], [freeze_gesture], [menu_hover], [invite],
    [object_grab], [object_zoom], [object_scale]) is [INVALID], whatever else
    the frame holds: none is shown and none is finished.  While it is not
    held, the three pen tips are [INVALID]. *)
Theorem pen_splits_the_tips f :
  if activeSets_has (the_userinput f) cursorHoldingPen
  then Forall (λ tip, validate f tip = Some INVALID)
         ["look"; "locomotion"; "turning"; "spawn_menu"; "freeze_gesture";
          "menu_hover"; "invite"; "object_grab"; "object_zoom";
          "object_scale"]
  else Forall (λ tip, validate f tip = Some INVALID)
         ["pen_color"; "pen_size"; "pen_mode"].
Proof.
  destruct (activeSets_has (the_userinput f) cursorHoldingPen) eqn:Hpen;
    each_validator; rewrite ?Hpen; simpl; split_ifs; done.
Qed.

(** X14. A frozen scene makes the tips for grabbing, zooming and scaling an
    object [INVALID] and keeps [freeze_gesture] from being [VALID]; a scene
    that is not frozen makes [menu_hover], the four object-button tips and
    [freeze_mode] [INVALID].  So no tip of one group is on show in a frame
    in which a tip of the other group could be. *)
Theorem frozen_splits_the_tips f :
  if scene_is f "frozen"
  then Forall (λ tip, validate f tip = Some INVALID)
         ["object_grab"; "object_zoom"; "object_scale"] ∧
       validate f "freeze_gesture" ≠ Some VALID
  else Forall (λ tip, validate f tip = Some INVALID)
         ["menu_hover"; "object_rotate_button"; "object_scale_button";
          "object_recenter_button"; "object_pin"; "freeze_mode"].
Proof.
  destruct (scene_is f "frozen") eqn:Hfrozen.
  - split.
    + each_validator; by rewrite Hfrozen.
    + unfold validate; simpl. unfold freeze_gesture. rewrite Hfrozen.
      simpl. split_ifs; done.
  - each_validator; rewrite Hfrozen; simpl; split_ifs; done.
Qed.

(** X15. With no shared object ([count] is 0) the tips that need one
    ([freeze_gesture], [menu_hover], [object_grab] and the four object-button
    tips) are [INVALID] and [spawn_menu] is never finished; with at least one
    object [spawn_menu] is never [VALID]. *)
Theorem count_gates_the_tips f :
  if count f =? 0
  then Forall (λ tip, validate f tip = Some INVALID)
         ["freeze_gesture"; "menu_hover"; "object_grab";
          "object_rotate_button"; "object_scale_button";
          "object_recenter_button"; "object_pin"] ∧
       validate f "spawn_menu" ≠ Some FINISH
  else validate f "spawn_menu" ≠ Some VALID.
Proof.
  destruct (count f =? 0) eqn:Hcount.
  - split.
    + each_validator; rewrite ?Hcount; simpl; split_ifs; done.
    + unfold validate; simpl. unfold spawn_menu. rewrite Hcount.
      split_ifs; done.
  - unfold validate; simpl. unfold spawn_menu. rewrite Hcount.
    split_ifs; done.
Qed.

(** X16. In a frame in which [userinput.get] gives nothing truthy for any
    path, none of the tips that wait for an action of the user ([look],
    [locomotion], [turning], [object_zoom], [object_scale], [pen_color],
    [pen_size]) gives [FINISH]: these tips never finish by themselves. *)
Theorem no_action_no_finish f :
  (∀ p, truthy (get (the_userinput f) p) = false) →
  Forall (λ tip, validate f tip ≠ Some FINISH)
    ["look"; "locomotion"; "turning"; "object_zoom"; "object_scale";
     "pen_color"; "pen_size"].
Proof.
  intros Hquiet. each_validator; rewrite ?Hquiet; simpl; split_ifs; done.
Qed.

(** ** The catalogs and the qualified names *)

(** X17. On every platform the two catalogs together name no tip twice, so a
    tip belongs to one scope only; every tip they name has a validator, so
    [_performStep] never calls [undefined]; and no tip name contains a
    dot. *)
Theorem catalogs_well_formed p f :
  NoDup (at_top (TIPS p) ++ at_bottom (TIPS p)) ∧
  Forall (λ tip, is_Some (validate f tip) ∧ has_dot tip = false)
         (at_top (TIPS p) ++ at_bottom (TIPS p)).
Proof.
  split.
  - destruct p; by apply (bool_decide_unpack _).
  - destruct p; simpl;
      repeat (apply Forall_cons; split; [split; [eexists|]; reflexivity|]);
      apply Forall_nil_2.
Qed.

Lemma split_dot_qualified tip :
  split_dot (qualified tip) = platform_name tipPlatform :: split_dot tip.
Proof. unfold qualified. by destruct tipPlatform. Qed.

(** X18. The name [_performStep] builds and the split [handleTipClose]
    applies go together: from the qualified name of a tip without a dot the
    split gives back the tip; for a tip with a dot it gives only the part
    before the first dot of the tip. *)
Theorem split_of_qualified tip :
  split_dot (qualified tip) !! 1
  = if has_dot tip then split_dot tip !! 0 else Some tip.
Proof.
  rewrite split_dot_qualified. simpl.
  destruct (has_dot tip) eqn:Hdot; [done|].
  by rewrite split_dot_no_dot.
Qed.

Lemma catalogs_tips_no_dot p :
  Forall (λ tip, has_dot tip = false) (at_top (TIPS p) ++ at_bottom (TIPS p)).
Proof.
  destruct p; simpl; repeat (apply Forall_cons; split; [reflexivity|]);
    apply Forall_nil_2.
Qed.

Lemma platformTips_no_dot sc tip :
  tip ∈ prop sc platformTips → has_dot tip = false.
Proof.
  intros Hin. pose proof (catalogs_tips_no_dot tipPlatform) as Hall.
  rewrite Forall_forall in Hall. apply Hall. apply elem_of_app.
  unfold platformTips in Hin. destruct sc; [by left|by right].
Qed.

(** X19. Closing a tip of a scope's catalog under its qualified name, on a
    record, returns with that tip recorded finished, locally dismissible or
    not; and the next tick returns and, when it evaluates, does not show it
    in that scope. *)
Theorem closing_a_catalog_tip_finishes_it tip sc f s m :
  tips_inv s → localStorage s = Item (JRecord m) →
  tip ∈ prop sc platformTips →
  ∃ s' s'', handleTipClose (qualified tip) sc s = Ok tt s' ∧
            recorded s' tip = true ∧
            tick f s' = Ok tt s'' ∧
            (_userinput s'' = true → _mediaCounter s'' = true →
             prop sc (activeTips s'') ≠ Tip (qualified tip)).
Proof.
  intros Hinv Hst Hin.
  pose proof (tips_inv_exec (Close (qualified tip) sc) s eq_refl Hinv)
    as Hinv'.
  simpl in Hinv'. unfold handleTipClose in *.
  rewrite split_dot_qualified in *. simpl in *.
  rewrite (split_dot_no_dot tip (platformTips_no_dot sc tip Hin)) in *.
  simpl in *.
  match goal with |- context [markTipsFinished ?l s] =>
    destruct (markTipsFinished_record l s m Hst)
      as (s' & m' & Heq & Hst' & Hm');
    assert (tip ∈ l) as Hl
      by (destruct (bool_decide _); [by apply list_elem_of_singleton|done])
  end.
  rewrite Heq in *. simpl in Hinv'.
  assert (has_finished_entry m' tip = true) as Hfin.
  { apply Hm'. left. split; [done|]. by apply (platformTips_not_proto sc). }
  destruct (tick_on_record f s' m' Hinv' Hst')
    as (s'' & m1 & m'' & Heq' & _ & Hle & _ & _ & Hsel).
  exists s', s''. split_and!; try done.
  - by rewrite (recorded_record s' m').
  - intros Hu Hmc. destruct (Hsel Hu Hmc) as [Htop Hbot].
    destruct sc; simpl.
    + rewrite Htop. by apply first_selectable_not_finished.
    + rewrite Hbot. apply first_selectable_not_finished. auto.
Qed.

(** X20. After a bulk close of a scope (a tip that is not locally
    dismissible) on a record, the next tick that evaluates shows [null] for
    that scope and sets its exhaustion flag. *)
Theorem bulk_close_exhausts_the_scope fullTip sc f s m :
  tips_inv s → localStorage s = Item (JRecord m) →
  is_local_close (split_dot fullTip !! 1) = false →
  _userinput s || userinput_resolves f = true →
  _mediaCounter s || mediaCounter_resolves f = true →
  ∃ s' s'', handleTipClose fullTip sc s = Ok tt s' ∧
            tick f s' = Ok tt s'' ∧
            prop sc (activeTips s'') = Null ∧
            prop sc (finishedScopes s'') = true.
Proof.
  intros Hinv Hst Hlocal Hin Hmc.
  pose proof (tips_inv_exec (Close fullTip sc) s eq_refl Hinv) as Hinv'.
  pose proof (markTipsFinished_rest (prop sc platformTips) s) as Hrest.
  simpl in Hinv'. unfold handleTipClose in *.
  assert (match split_dot fullTip !! 1 with
          | Some t => if is_local_close (split_dot fullTip !! 1)
                      then [t] else prop sc platformTips
          | None => prop sc platformTips
          end = prop sc platformTips) as Htips.
  { rewrite Hlocal. by destruct (split_dot fullTip !! 1). }
  rewrite Htips in *.
  destruct (markTipsFinished_record (prop sc platformTips) s m Hst)
    as (s' & m' & Heq & Hst' & Hm').
  rewrite Heq in *. simpl in Hinv', Hrest.
  unfold rest_of in Hrest. injection Hrest as _ _ Hu Hmc' _.
  assert (∀ x, x ∈ prop sc platformTips → has_finished_entry m' x = true)
    as Hall.
  { intros x Hx. apply Hm'. left. split; [done|].
    by apply (platformTips_not_proto sc). }
  destruct (tick_exact f s' m' Hinv' Hst')
    as (s'' & Heq' & _ & _ & Htop & Hbot & Hft & Hfb & _);
    [by rewrite Hu|by rewrite Hmc'|].
  exists s', s''. split; [done|]. split; [done|]. destruct sc; simpl in *.
  - split; [|by apply Hft].
    by rewrite Htop, scan_pure_all_finished.
  - assert (∀ x, x ∈ at_bottom platformTips →
                 has_finished_entry
                   (scan_pure f m' (at_top platformTips) 0).2 x = true)
      as Hall' by (intros x Hx; by apply scan_pure_grows, Hall).
    split; [|by apply Hfb].
    by rewrite Hbot, scan_pure_all_finished.
Qed.

(** X21. A name without a dot has no second piece, so [handleTipClose]
    treats it as not locally dismissible: called with the bare name of a tip,
    [invite] included, it marks the whole catalog of the scope. *)
Theorem close_without_dot_is_bulk fullTip sc s :
  has_dot fullTip = false →
  handleTipClose fullTip sc s = markTipsFinished (prop sc platformTips) s.
Proof.
  intros Hdot. unfold handleTipClose. by rewrite (split_dot_no_dot _ Hdot).
Qed.

End Device.

(** ** The standalone platform *)

(** C10. On the standalone platform ([isMobileVR] true) both catalogs are
    empty; in a state of the running system, a tick that finds both handles
    returns with the exhaustion flag of either scope set and [null] shown for
    it, whatever the durable record holds, and after any run without a reset
    the flag is still set and the scope still shows [null]. *)
Theorem standalone_scopes_exhausted_at_first_tick isMobile f s ops sc :
  tips_inv isMobile true s →
  _userinput s || userinput_resolves f = true →
  _mediaCounter s || mediaCounter_resolves f = true →
  has_reset ops = false →
  platformTips isMobile true = PerScope [] [] ∧
  ∃ s1, tick isMobile true f s = Ok tt s1 ∧
        prop sc (finishedScopes s1) = true ∧
        prop sc (activeTips s1) = Null ∧
        prop sc (finishedScopes (run isMobile true ops s1)) = true ∧
        prop sc (activeTips (run isMobile true ops s1)) = Null.
Proof.
  intros [_ Hfl] Hin Hmc Hnr. split; [done|].
  assert (∃ s1, tick isMobile true f s = Ok tt s1 ∧
                finishedScopes s1 = PerScope true true ∧
                activeTips s1 = PerScope Null Null) as (s1 & Heq & Hfs & Hact).
  { unfold tick. rewrite tick_with_handles by done.
    pose proof (Hfl top) as Ht. pose proof (Hfl bottom) as Hb.
    destruct s as [st c [ft fb] [a_t a_b] u mc ev]. simpl in Ht, Hb.
    unfold evaluate, bind, gets. rewrite !performStep_unfold. simpl.
    assert (∀ (b : bool) (s0 : state),
              finishedScopes s0 = PerScope true true →
              activeTips s0 = PerScope Null Null →
              ∃ s1, (if b then modify (emit (PerScope Null Null)) else ret tt) s0
                    = Ok tt s1 ∧
                    finishedScopes s1 = PerScope true true ∧
                    activeTips s1 = PerScope Null Null) as Hend.
    { intros b s0 Hf0 Ha0. destruct b; eexists; by split. }
    destruct ft; simpl.
    - destruct (Ht eq_refl) as [-> _]. rewrite performStep_unfold. simpl.
      destruct fb; simpl.
      + destruct (Hb eq_refl) as [-> _]. by apply Hend.
      + by apply Hend.
    - rewrite performStep_unfold. simpl. destruct fb; simpl.
      + destruct (Hb eq_refl) as [-> _]. by apply Hend.
      + by apply Hend. }
  exists s1. split; [done|].
  destruct (run_exhausted isMobile true ops s1 Hnr Hfs) as [Hfs' Hact'].
  rewrite Hfs', Hact', Hfs, Hact. by destruct sc.
Qed.

(** ** Concrete instances *)


Example first_tick_shows_look :
  activeTips (run false false [Tick idle_frame] (init NoItem))
  = PerScope Null (Tip "desktop.look").
Proof. reflexivity. Qed.

(** [look] gave [FINISH] in the first tick; a close and two more ticks later
    it is still finished and not shown. *)
Lemma finished_tip_never_selected_again_witness :
  tips_inv false false (run false false [Tick camera_frame] (init NoItem)) ∧
  recorded (run false false [Tick camera_frame] (init NoItem)) "look" = true ∧
  has_reset [Close "desktop.invite" bottom; Tick idle_frame] = false ∧
  recorded (run false false [Close "desktop.invite" bottom; Tick idle_frame]
              (run false false [Tick camera_frame] (init NoItem))) "look"
  = true ∧
  ∃ s', tick false false idle_frame
          (run false false [Close "desktop.invite" bottom; Tick idle_frame]
             (run false false [Tick camera_frame] (init NoItem)))
        = Ok tt s' ∧
        recorded s' "look" = true ∧
        (_userinput s' = true → _mediaCounter s' = true →
         ∀ sc, prop sc (activeTips s') ≠ Tip (qualified false false "look")).
Proof.
  assert (tips_inv false false
            (run false false [Tick camera_frame] (init NoItem))) as Hinv.
  { split; [right; reflexivity|].
    intros sc Hsc. destruct sc; discriminate Hsc. }
  split; [exact Hinv|]. split; [reflexivity|]. split; [reflexivity|].
  apply (finished_tip_never_selected_again false false _ "look"
           [Close "desktop.invite" bottom; Tick idle_frame] idle_frame Hinv);
    reflexivity.
Defined.

(** The camera moves: [look] gives [FINISH], is marked, and the scan goes on
    to [locomotion], which is shown. *)
Lemma finish_marks_and_scan_continues_witness :
  coherent (init NoItem) ∧
  localStorage (init NoItem) = Item (JRecord ∅) ∧
  prop bottom (finishedScopes (init NoItem)) = false ∧
  Forall (λ tip, is_Some (validate false camera_frame tip))
         ([] ++ "look" :: ["locomotion"]) ∧
  (∀ x : string, x ∈ [] → selectable false camera_frame ∅ x = false) ∧
  has_finished_entry ∅ "look" = false ∧
  validate false camera_frame "look" = Some FINISH ∧
  ∃ s', _performStep false false camera_frame ([] ++ "look" :: ["locomotion"])
          bottom (init NoItem) = Ok tt s' ∧
        recorded s' "look" = true ∧
        prop bottom (activeTips s')
        = first_selectable false false camera_frame ∅ ["locomotion"] ∧
        prop bottom (activeTips s') ≠ Tip (qualified false false "look").
Proof.
  assert (Forall (λ tip, is_Some (validate false camera_frame tip))
                 ([] ++ "look" :: ["locomotion"])) as Hval.
  { repeat (apply Forall_cons; split; [eexists; reflexivity|]).
    apply Forall_nil_2. }
  assert (∀ x : string, x ∈ [] → selectable false camera_frame ∅ x = false)
    as Hpre.
  { intros x Hx. by apply elem_of_nil in Hx. }
  split; [by left|]. split; [reflexivity|]. split; [reflexivity|].
  split; [exact Hval|]. split; [exact Hpre|].
  split; [reflexivity|]. split; [reflexivity|].
  apply (finish_marks_and_scan_continues false false camera_frame bottom
           (init NoItem) ∅ [] "look" ["locomotion"]);
    [by left|reflexivity|reflexivity|exact Hval|exact Hpre
    |reflexivity|reflexivity].
Defined.

Example finish_then_next_is_shown :
  activeTips (run false false [Tick camera_frame] (init NoItem))
  = PerScope Null (Tip "desktop.locomotion").
Proof. reflexivity. Qed.

(** Closing [desktop.invite] marks [invite] alone. *)
Lemma handleTipClose_marks_witness :
  has_dot "desktop" = false ∧ has_dot "invite" = false ∧
  localStorage (init NoItem) = Item (JRecord ∅) ∧
  ∃ s', handleTipClose false false ("desktop" +:+ "." +:+ "invite") top
          (init NoItem) = Ok tt s' ∧
    ∀ x, recorded s' x = true ↔
         (if bool_decide ("invite" = "invite" ∨ "invite" = "object_pin")
          then x = "invite"
          else x ∈ prop top (platformTips false false)) ∨
         recorded (init NoItem) x = true.
Proof.
  split; [reflexivity|]. split; [reflexivity|]. split; [reflexivity|].
  apply (handleTipClose_marks false false "desktop" "invite" top
           (init NoItem) ∅); reflexivity.
Defined.

Example close_invite_is_local :
  localStorage (run false false [Close "desktop.invite" top] (init NoItem))
  = Item (JRecord {[ "invite" := true ]}).
Proof. reflexivity. Qed.

Example close_spawn_menu_clears_scope :
  let s := run true false [Close "mobile.spawn_menu" bottom] (init NoItem) in
  forallb (recorded s) (at_bottom (TIPS mobile)) = true ∧
  forallb (λ tip, negb (recorded s tip)) (at_top (TIPS mobile)) = true.
Proof. split; reflexivity. Qed.

(** The first tick of a fresh desktop system changes what is shown and emits
    once; the same frame again emits nothing more. *)
Lemma tick_emits_once_iff_changed_witness :
  ∃ s', tick false false idle_frame (init NoItem) = Ok tt s' ∧
    emitted s' =
      emitted (init NoItem) ++
      (if bool_decide
            (at_top (activeTips s') = at_top (activeTips (init NoItem)) ∧
             at_bottom (activeTips s') = at_bottom (activeTips (init NoItem)))
       then [] else [activeTips s']).
Proof.
  exists (state_of (tick false false idle_frame (init NoItem))).
  split; [reflexivity|].
  apply (tick_emits_once_iff_changed false false idle_frame (init NoItem)).
  reflexivity.
Defined.

Example two_idle_ticks_emit_once :
  emitted (run false false [Tick idle_frame; Tick idle_frame] (init NoItem))
  = [PerScope Null (Tip "desktop.look")].
Proof. reflexivity. Qed.

(** A frozen scene with one object and no store. *)
Lemma activity_gated_validators_default_valid_witness :
  store frozen_frame = None ∧ scene_is frozen_frame "frozen" = true ∧
  0 < count frozen_frame ∧
  "object_pin" ∈ ["object_rotate_button"; "object_scale_button";
                  "object_recenter_button"; "object_pin"] ∧
  validate false frozen_frame "object_pin" = Some VALID.
Proof.
  assert ("object_pin" ∈ ["object_rotate_button"; "object_scale_button";
                          "object_recenter_button"; "object_pin"]) as Hin.
  { repeat (apply elem_of_cons; first [by left|right]). }
  split; [reflexivity|]. split; [reflexivity|]. split; [simpl; lia|].
  split; [exact Hin|].
  apply (activity_gated_validators_default_valid false frozen_frame "object_pin");
    [reflexivity|reflexivity|simpl; lia|exact Hin].
Defined.

(** A standalone system: the first tick with both handles exhausts both
    scopes although nothing is recorded finished. *)
Lemma standalone_scopes_exhausted_at_first_tick_witness :
  tips_inv false true (init NoItem) ∧
  _userinput (init NoItem) || userinput_resolves idle_frame = true ∧
  _mediaCounter (init NoItem) || mediaCounter_resolves idle_frame = true ∧
  has_reset [Tick camera_frame; Mark "look"] = false ∧
  platformTips false true = PerScope [] [] ∧
  ∃ s1, tick false true idle_frame (init NoItem) = Ok tt s1 ∧
        prop top (finishedScopes s1) = true ∧
        prop top (activeTips s1) = Null ∧
        prop top (finishedScopes
                    (run false true [Tick camera_frame; Mark "look"] s1))
        = true ∧
        prop top (activeTips
                    (run false true [Tick camera_frame; Mark "look"] s1))
        = Null.
Proof.
  assert (tips_inv false true (init NoItem)) as Hinv.
  { split; [by left|]. intros sc Hsc. destruct sc; discriminate Hsc. }
  split; [exact Hinv|]. split; [reflexivity|]. split; [reflexivity|].
  split; [reflexivity|].
  apply (standalone_scopes_exhausted_at_first_tick false idle_frame
           (init NoItem) [Tick camera_frame; Mark "look"] top Hinv);
    reflexivity.
Defined.

Example standalone_record_stays_empty :
  localStorage (run false true [Tick idle_frame] (init NoItem))
  = Item (JRecord ∅).
Proof. reflexivity. Qed.

(** ** The query and the mark without a record *)


(** ** Ticks by platform, with and without a record *)

(** X22. On desktop and mobile, a tick that evaluates in a running system
    whose stored item is no record (absent, not JSON, or JSON [null]) throws
    at the first lookup of the top scope, [SyntaxError] for a string that is
    not JSON and [TypeError] otherwise; it has resolved the handles and
    changed nothing else. *)
Theorem tick_throws_without_record isMobile f s :
  tips_inv isMobile false s →
  record_of (localStorage s) = None →
  _userinput s || userinput_resolves f = true →
  _mediaCounter s || mediaCounter_resolves f = true →
  tick isMobile false f s
  = Throw (match localStorage s with BadItem => SyntaxError | _ => TypeError end)
          (set_mediaCounter true (set_userinput true s)).
Proof.
  intros [Hco Hfl] Hrec Hin Hmc. unfold tick.
  rewrite tick_with_handles by done.
  pose proof (coherent_no_record s Hrec Hco) as Hc.
  assert (at_top (finishedScopes s) = false) as Hflag.
  { destruct (at_top (finishedScopes s)) eqn:Hflag; [|done].
    destruct (Hfl top Hflag) as [_ Hall].
    specialize (Hall "pen_mode"). unfold recorded in Hall.
    rewrite Hrec in Hall. symmetry. apply Hall.
    destruct isMobile; simpl; repeat (apply elem_of_cons; first [by left|right]). }
  destruct s as [st c fs a u mc ev]. simpl in *. subst c.
  unfold evaluate, bind, gets. rewrite performStep_unfold. simpl.
  rewrite Hflag.
  destruct st as [| |[|m]]; try discriminate Hrec; by destruct isMobile.
Qed.

(** X23. On the standalone platform a tick returns from every state, a
    corrupt store included, and neither reads nor writes the store or the
    cache. *)
Theorem standalone_tick_never_throws isMobile f s :
  ∃ s', tick isMobile true f s = Ok tt s' ∧
        localStorage s' = localStorage s ∧
        localStorageCache s' = localStorageCache s.
Proof.
  unfold tick.
  destruct (_userinput s || userinput_resolves f) eqn:Hin.
  - destruct (_mediaCounter s || mediaCounter_resolves f) eqn:Hmc.
    + rewrite tick_with_handles by done.
      destruct s as [st c [ft fb] [a_t a_b] u mc ev].
      unfold evaluate, bind, gets. rewrite !performStep_unfold. simpl.
      destruct ft; simpl; rewrite performStep_unfold; simpl;
        destruct fb; simpl;
        match goal with
        | |- context [if ?b then _ else _] => destruct b
        end; by eexists.
    + apply orb_false_iff in Hmc as [Hmc1 Hmc2].
      rewrite tick_without_counter by done. by eexists.
  - apply orb_false_iff in Hin as [Hin1 Hin2].
    rewrite tick_without_input by done. by eexists.
Qed.

(** ** Concrete instances of the further properties *)


Lemma tick_marks_only_finish_witness :
  tips_inv false false (init NoItem) ∧
  localStorage (init NoItem) = Item (JRecord ∅) ∧
  ∃ s' m', tick false false camera_frame (init NoItem) = Ok tt s' ∧
    localStorage s' = Item (JRecord m') ∧
    ∀ x, (has_finished_entry ∅ x = true → has_finished_entry m' x = true) ∧
         (has_finished_entry m' x = true →
          has_finished_entry ∅ x = true ∨
          ((x ∈ at_top (platformTips false false)
            ∨ x ∈ at_bottom (platformTips false false)) ∧
           validate false camera_frame x = Some FINISH)).
Proof.
  assert (tips_inv false false (init NoItem)) as Hinv.
  { split; [by left|]. intros sc Hsc. destruct sc; discriminate Hsc. }
  split; [exact Hinv|]. split; [reflexivity|].
  apply (tick_marks_only_finish false false camera_frame (init NoItem) ∅ Hinv).
  reflexivity.
Defined.

Example camera_tick_marks_look_only :
  localStorage (run false false [Tick camera_frame] (init NoItem))
  = Item (JRecord {[ "look" := true ]}).
Proof. reflexivity. Qed.

Lemma tick_twice_same_frame_witness :
  tips_inv false false (init NoItem) ∧
  localStorage (init NoItem) = Item (JRecord ∅) ∧
  ∃ s1 s2, tick false false camera_frame (init NoItem) = Ok tt s1 ∧
           tick false false camera_frame s1 = Ok tt s2 ∧
           localStorage s2 = localStorage s1 ∧
           activeTips s2 = activeTips s1 ∧
           emitted s2 = emitted s1.
Proof.
  assert (tips_inv false false (init NoItem)) as Hinv.
  { split; [by left|]. intros sc Hsc. destruct sc; discriminate Hsc. }
  split; [exact Hinv|]. split; [reflexivity|].
  apply (tick_twice_same_frame false false camera_frame (init NoItem) ∅ Hinv).
  reflexivity.
Defined.


Example mark_proto_writes_nothing :
  localStorage (run false false [Mark "__proto__"] (init NoItem))
  = Item (JRecord ∅) ∧
  returned ((let! _ := markTipFinished "__proto__" in
             isTipFinished "__proto__") (init NoItem)) = Some false.
Proof. split; reflexivity. Qed.

Lemma markTipsFinished_order_and_repeats_witness :
  ["look"; "invite"] ≡ₚ ["invite"; "look"] ∧
  markTipsFinished ["look"; "invite"] (init NoItem)
  = markTipsFinished ["invite"; "look"] (init NoItem) ∧
  ∀ tip, markTipsFinished (tip :: tip :: ["look"; "invite"]) (init NoItem)
         = markTipsFinished (tip :: ["look"; "invite"]) (init NoItem).
Proof.
  assert (["look"; "invite"] ≡ₚ ["invite"; "look"]) as Hperm
    by apply perm_swap.
  split; [exact Hperm|].
  apply (markTipsFinished_order_and_repeats _ _ (init NoItem) Hperm).
Defined.

Lemma reset_then_tick_is_fresh_witness :
  store stored_frame = Some fresh_activity ∧
  _userinput (run false false [Tick camera_frame] (init NoItem))
  || userinput_resolves stored_frame = true ∧
  _mediaCounter (run false false [Tick camera_frame] (init NoItem))
  || mediaCounter_resolves stored_frame = true ∧
  ∃ s', (let! _ := resetTips (store stored_frame) in
         tick false false stored_frame)
          (run false false [Tick camera_frame] (init NoItem)) = Ok tt s' ∧
        ∀ sc, prop sc (activeTips s')
              = first_selectable false false stored_frame ∅
                  (prop sc (platformTips false false)).
Proof.
  split; [reflexivity|]. split; [reflexivity|]. split; [reflexivity|].
  apply (reset_then_tick_is_fresh false false stored_frame fresh_activity);
    reflexivity.
Defined.

Example reset_brings_look_back :
  activeTips (run false false
                [Tick camera_frame; Reset (Some fresh_activity);
                 Tick stored_frame]
                (init NoItem))
  = PerScope Null (Tip "desktop.look").
Proof. reflexivity. Qed.

Lemma tick_on_exhausted_scopes_witness :
  finishedScopes (run false true [Tick idle_frame] (init BadItem))
  = PerScope true true ∧
  ∃ s', tick false true camera_frame
          (run false true [Tick idle_frame] (init BadItem)) = Ok tt s' ∧
        localStorage s'
        = localStorage (run false true [Tick idle_frame] (init BadItem)) ∧
        localStorageCache s'
        = localStorageCache (run false true [Tick idle_frame] (init BadItem)) ∧
        finishedScopes s'
        = finishedScopes (run false true [Tick idle_frame] (init BadItem)) ∧
        activeTips s'
        = activeTips (run false true [Tick idle_frame] (init BadItem)) ∧
        emitted s'
        = emitted (run false true [Tick idle_frame] (init BadItem)).
Proof.
  split; [reflexivity|].
  apply (tick_on_exhausted_scopes false true camera_frame). reflexivity.
Defined.

Lemma tick_waits_for_handles_witness :
  (_userinput (init BadItem) || userinput_resolves waiting_frame)
  && (_mediaCounter (init BadItem) || mediaCounter_resolves waiting_frame)
  = false ∧
  ∃ s', tick false false waiting_frame (init BadItem) = Ok tt s' ∧
        localStorage s' = localStorage (init BadItem) ∧
        localStorageCache s' = localStorageCache (init BadItem) ∧
        finishedScopes s' = finishedScopes (init BadItem) ∧
        activeTips s' = activeTips (init BadItem) ∧
        emitted s' = emitted (init BadItem) ∧
        _userinput s'
        = _userinput (init BadItem) || userinput_resolves waiting_frame ∧
        _mediaCounter s' = _mediaCounter (init BadItem).
Proof.
  split; [reflexivity|].
  apply (tick_waits_for_handles false false waiting_frame (init BadItem)).
  reflexivity.
Defined.

Lemma no_action_no_finish_witness :
  (∀ p, truthy (get (the_userinput idle_frame) p) = false) ∧
  Forall (λ tip, validate false idle_frame tip ≠ Some FINISH)
    ["look"; "locomotion"; "turning"; "object_zoom"; "object_scale";
     "pen_color"; "pen_size"].
Proof.
  assert (∀ p, truthy (get (the_userinput idle_frame) p) = false) as Hquiet
    by (intros p; reflexivity).
  split; [exact Hquiet|].
  apply (no_action_no_finish false idle_frame Hquiet).
Defined.

Lemma closing_a_catalog_tip_finishes_it_witness :
  tips_inv false false (init NoItem) ∧
  localStorage (init NoItem) = Item (JRecord ∅) ∧
  "look" ∈ prop bottom (platformTips false false) ∧
  ∃ s' s'', handleTipClose false false (qualified false false "look") bottom
              (init NoItem) = Ok tt s' ∧
            recorded s' "look" = true ∧
            tick false false idle_frame s' = Ok tt s'' ∧
            (_userinput s'' = true → _mediaCounter s'' = true →
             prop bottom (activeTips s'') ≠ Tip (qualified false false "look")).
Proof.
  assert (tips_inv false false (init NoItem)) as Hinv.
  { split; [by left|]. intros sc Hsc. destruct sc; discriminate Hsc. }
  assert ("look" ∈ prop bottom (platformTips false false)) as Hin
    by (apply elem_of_cons; by left).
  split; [exact Hinv|]. split; [reflexivity|]. split; [exact Hin|].
  apply (closing_a_catalog_tip_finishes_it false false "look" bottom idle_frame
           (init NoItem) ∅ Hinv); [reflexivity|exact Hin].
Defined.

Lemma bulk_close_exhausts_the_scope_witness :
  tips_inv false false (init NoItem) ∧
  localStorage (init NoItem) = Item (JRecord ∅) ∧
  is_local_close (split_dot "desktop.look" !! 1) = false ∧
  _userinput (init NoItem) || userinput_resolves idle_frame = true ∧
  _mediaCounter (init NoItem) || mediaCounter_resolves idle_frame = true ∧
  ∃ s' s'', handleTipClose false false "desktop.look" bottom (init NoItem)
            = Ok tt s' ∧
            tick false false idle_frame s' = Ok tt s'' ∧
            prop bottom (activeTips s'') = Null ∧
            prop bottom (finishedScopes s'') = true.
Proof.
  assert (tips_inv false false (init NoItem)) as Hinv.
  { split; [by left|]. intros sc Hsc. destruct sc; discriminate Hsc. }
  split; [exact Hinv|]. split; [reflexivity|]. split; [reflexivity|].
  split; [reflexivity|]. split; [reflexivity|].
  apply (bulk_close_exhausts_the_scope false false "desktop.look" bottom
           idle_frame (init NoItem) ∅ Hinv); reflexivity.
Defined.

Lemma close_without_dot_is_bulk_witness :
  has_dot "invite" = false ∧
  handleTipClose false false "invite" top (init NoItem)
  = markTipsFinished (prop top (platformTips false false)) (init NoItem).
Proof.
  split; [reflexivity|].
  apply (close_without_dot_is_bulk false false "invite" top (init NoItem)).
  reflexivity.
Defined.

Example close_bare_invite_clears_top :
  localStorage (run false false [Close "invite" top] (init NoItem))
  = localStorage (run false false [Close "desktop.mute_mode" top] (init NoItem)).
Proof. reflexivity. Qed.

Lemma tick_throws_without_record_witness :
  tips_inv false false (init BadItem) ∧
  record_of (localStorage (init BadItem)) = None ∧
  _userinput (init BadItem) || userinput_resolves idle_frame = true ∧
  _mediaCounter (init BadItem) || mediaCounter_resolves idle_frame = true ∧
  tick false false idle_frame (init BadItem)
  = Throw (match localStorage (init BadItem) with
           | BadItem => SyntaxError
           | _ => TypeError
           end)
          (set_mediaCounter true (set_userinput true (init BadItem))).
Proof.
  assert (tips_inv false false (init BadItem)) as Hinv.
  { split; [by left|]. intros sc Hsc. destruct sc; discriminate Hsc. }
  split; [exact Hinv|]. split; [reflexivity|]. split; [reflexivity|].
  split; [reflexivity|].
  apply (tick_throws_without_record false idle_frame (init BadItem) Hinv);
    reflexivity.
Defined.

(** ** The exhaustion flag after a reset that throws *)

(** C7. The code breaks the property after a reset that throws.  Desktop,
    nothing stored, no store: the bottom scope is closed in bulk and a tick
    sets its exhaustion flag; the reset then empties the record and throws
    on the absent store before it clears the flags; in the next tick the
    shortcut skips the bottom scope and shows [null], while a re-walk of the
    catalog shows [desktop.look]. *)
Lemma exhaustion_flag_stale_after_failed_reset :
  exec false false (Reset None)
    (run false false [Close "desktop.look" bottom; Tick idle_frame]
       (init NoItem))
  = Throw TypeError
      (run false false
         [Close "desktop.look" bottom; Tick idle_frame; Reset None]
         (init NoItem)) ∧
  localStorage
    (run false false [Close "desktop.look" bottom; Tick idle_frame; Reset None]
       (init NoItem)) = Item (JRecord ∅) ∧
  finishedScopes
    (run false false [Close "desktop.look" bottom; Tick idle_frame; Reset None]
       (init NoItem)) = PerScope false true ∧
  activeTips
    (run false false
       [Close "desktop.look" bottom; Tick idle_frame; Reset None;
        Tick idle_frame]
       (init NoItem)) = PerScope Null Null ∧
  activeTips
    (run_full false false
       [Close "desktop.look" bottom; Tick idle_frame; Reset None;
        Tick idle_frame]
       (init NoItem)) = PerScope Null (Tip "desktop.look").
Proof. repeat split. Qed.

Lemma shortcut_refines_rewalk_witness :
  resets_find_store
    [Close "desktop.look" bottom; Tick stored_frame;
     Reset (Some fresh_activity); Tick stored_frame] = true ∧
  same_view
    (run false false
       [Close "desktop.look" bottom; Tick stored_frame;
        Reset (Some fresh_activity); Tick stored_frame] (init NoItem))
    (run_full false false
       [Close "desktop.look" bottom; Tick stored_frame;
        Reset (Some fresh_activity); Tick stored_frame] (init NoItem)) ∧
  ∀ f sc,
    returned (_performStep false false f (prop sc (platformTips false false)) sc
                (run false false
                   [Close "desktop.look" bottom; Tick stored_frame;
                    Reset (Some fresh_activity); Tick stored_frame]
                   (init NoItem)))
    = returned (_performStep_full false false f
                  (prop sc (platformTips false false)) sc
                  (run_full false false
                     [Close "desktop.look" bottom; Tick stored_frame;
                      Reset (Some fresh_activity); Tick stored_frame]
                     (init NoItem))) ∧
    same_view
      (state_of (_performStep false false f
                   (prop sc (platformTips false false)) sc
                   (run false false
                      [Close "desktop.look" bottom; Tick stored_frame;
                       Reset (Some fresh_activity); Tick stored_frame]
                      (init NoItem))))
      (state_of (_performStep_full false false f
                   (prop sc (platformTips false false)) sc
                   (run_full false false
                      [Close "desktop.look" bottom; Tick stored_frame;
                       Reset (Some fresh_activity); Tick stored_frame]
                      (init NoItem)))).
Proof.
  split; [reflexivity|].
  apply (shortcut_refines_rewalk false false NoItem
           [Close "desktop.look" bottom; Tick stored_frame;
            Reset (Some fresh_activity); Tick stored_frame]).
  reflexivity.
Defined.

Lemma cache_and_flags_invariant_witness :
  resets_find_store
    [Reset (Some fresh_activity); Close "desktop.look" bottom;
     Tick stored_frame] = true ∧
  (localStorageCache
     (run false false
        [Reset (Some fresh_activity); Close "desktop.look" bottom;
         Tick stored_frame] (init BadItem))
   = JNull
   ∨ localStorage
       (run false false
          [Reset (Some fresh_activity); Close "desktop.look" bottom;
           Tick stored_frame] (init BadItem))
     = Item (localStorageCache
               (run false false
                  [Reset (Some fresh_activity); Close "desktop.look" bottom;
                   Tick stored_frame] (init BadItem)))) ∧
  ∀ sc,
    prop sc (finishedScopes
               (run false false
                  [Reset (Some fresh_activity); Close "desktop.look" bottom;
                   Tick stored_frame] (init BadItem))) = true →
    prop sc (activeTips
               (run false false
                  [Reset (Some fresh_activity); Close "desktop.look" bottom;
                   Tick stored_frame] (init BadItem))) = Null ∧
    ∀ tip, tip ∈ prop sc (platformTips false false) →
           recorded
             (run false false
                [Reset (Some fresh_activity); Close "desktop.look" bottom;
                 Tick stored_frame] (init BadItem)) tip = true.
Proof.
  split; [reflexivity|].
  destruct (cache_and_flags_invariant false false BadItem
              [Reset (Some fresh_activity); Close "desktop.look" bottom;
               Tick stored_frame]) as [Hcache Hflags].
  split; [exact Hcache|exact (Hflags eq_refl)].
Defined.
